(** * StringSight firmware: the port-schema payload codec

    A shallow embedding of [lib/PortSchema/src/SensorPortSchema.cpp]
    (the field encoder [encodeDataWithSchema]) and of the port table of
    [lib/PortSchema/src/PortSchema.h], with the properties the
    specification states about them.

    Conventions.
    - A C++ integer is a [Z]; every conversion to a narrower or to a signed
      type is written out ([wrap_u8], [wrap_i32]).
    - [float] is IEEE-754 binary32, given by the Standard Library's
      [spec_float] operations at precision 24 and maximal exponent 128.
    - An execution that the C++ standard leaves undefined (division by
      zero, a shift by 32 bits or more, a float that does not fit [int],
      a store outside the caller's buffer) has no result: the embedding
      returns [None] there.
    - The payload buffer is the list of its bytes; its length is the
      caller-supplied capacity. *)

From Stdlib Require Import ZArith QArith Qabs Lia Bool Ascii String DecimalString.
From Stdlib Require Import Floats.SpecFloat.
From stdpp Require Import base list.

Local Open Scope Z_scope.

(** ** Machine integers *)

Module Int.

(** Conversion to [uint8_t]: reduction modulo 2^8. *)
Definition wrap_u8 (z : Z) : Z := z mod 256.

(** Conversion to [int] (32 bits, two's complement). *)
Definition wrap_i32 (z : Z) : Z := (z + 2 ^ 31) mod 2 ^ 32 - 2 ^ 31.

Definition INT_MIN : Z := - 2 ^ 31.
Definition INT_MAX : Z := 2 ^ 31 - 1.

Definition in_int (z : Z) : bool := (INT_MIN <=? z) && (z <=? INT_MAX).

(** [a << n] on [int]: undefined for a shift count outside [0, 32); a
    result beyond [INT_MAX] is reduced to 32 bits (gcc, and C++20). *)
Definition shl_int (a n : Z) : option Z :=
  if (0 <=? n) && (n <? 32) then Some (wrap_i32 (Z.shiftl a n)) else None.

(** [a >> n] on [int]: undefined for a shift count outside [0, 32);
    arithmetic on a negative operand (gcc, and C++20). *)
Definition shr_int (a n : Z) : option Z :=
  if (0 <=? n) && (n <? 32) then Some (Z.shiftr a n) else None.

(** [a / b] on [int]: truncating, undefined for a zero divisor. *)
Definition div_int (a b : Z) : option Z :=
  if b =? 0 then None else Some (Z.quot a b).

End Int.
Import Int.

(** ** Single-precision floats *)

Module Float32.

Definition prec : Z := 24.
Definition emax : Z := 128.

Definition float : Type := spec_float.

Definition mul (x y : float) : float := SFmul prec emax x y.
Definition div (x y : float) : float := SFdiv prec emax x y.

(** [(float)n] for an integer [n]: rounding to nearest, ties to even. *)
Definition of_int (n : Z) : float := binary_normalize prec emax n 0 false.

(** The integer part of a finite float, rounding toward zero. *)
Definition trunc (x : float) : option Z :=
  match x with
  | S754_zero _ => Some 0
  | S754_finite s m e => Some (cond_Zopp s (Z.shiftl (Z.pos m) e))
  | S754_infinity _ | S754_nan => None
  end.

(** [(int)x]: truncation toward zero; undefined when the truncated value
    is not representable in [int] (and for infinities and NaN). *)
Definition to_int (x : float) : option Z :=
  match trunc x with
  | Some t => if in_int t then Some t else None
  | None => None
  end.

(** The rational a float stands for (0 for infinities and NaN). *)
Definition to_Q (x : float) : Q :=
  match x with
  | S754_finite s m e =>
      match e with
      | Z.neg k => Qmake (cond_Zopp s (Z.pos m)) (2 ^ k)
      | _ => inject_Z (cond_Zopp s (Z.pos m) * 2 ^ e)
      end
  | _ => 0%Q
  end.

Definition add (x y : float) : float := SFadd prec emax x y.
Definition sub (x y : float) : float := SFsub prec emax x y.

(** [x <= y] and [x < y]: false when an operand is NaN. *)
Definition leb (x y : float) : bool := SFleb x y.
Definition ltb (x y : float) : bool := SFltb x y.

End Float32.

(** ** Logging

    [encodeDataWithSchema] calls [log(LOG_LEVEL::WARN, ...)]; a call is
    recorded as an event of the trace the encoder returns.  (Whether
    [log] prints the event depends on [APP_LOG_LEVEL], see Logging.cpp.) *)

Inductive LOG_LEVEL := NONE | ERROR | WARN | INFO | DEBUG.

Definition log_event : Type := LOG_LEVEL * string.

Definition log (level : LOG_LEVEL) (message : string) : list log_event :=
  [(level, message)].

Definition unsigned_warning : string :=
  "A signed value is being sent for a sensor port schema that is unsigned.".

(** ** Data model *)

(** The five instantiations of the template parameter [T] of
    [encodeDataWithSchema], one per overload of
    [sensorPortSchema::encodeData]. *)
Inductive sensor_value :=
| of_uint8 (n : Z)
| of_uint16 (n : Z)
| of_uint32 (n : Z)
| of_int (n : Z)
| of_float (x : Float32.float).

(** [(float)sensor_data]. *)
Definition to_float (sensor_data : sensor_value) : Float32.float :=
  match sensor_data with
  | of_uint8 n | of_uint16 n | of_uint32 n | of_int n => Float32.of_int n
  | of_float x => x
  end.

(** The number [sensor_data] holds, before any conversion. *)
Definition reading_value (sensor_data : sensor_value) : Q :=
  match sensor_data with
  | of_uint8 n | of_uint16 n | of_uint32 n | of_int n => inject_Z n
  | of_float x => Float32.to_Q x
  end.

(** Modelled from the spec: the declaration of [struct sensorPortSchema]
    (SensorPortSchema.h) is missing; the encoder reads the four members
    below, which the specification describes as [byte_width],
    [value_count], [scale_factor] and [is_signed]. *)
Record sensorPortSchema := {
  n_bytes : Z;
  n_values : Z;
  scale_factor : Float32.float;
  is_signed : bool
}.

(** [lmh_app_data_t], the LoRaWAN payload descriptor the encoder writes
    through: the buffer, the number of bytes in use ([uint8_t]) and three
    fields the encoder never touches. *)
Record lmh_app_data_t := {
  buffer : list Z;
  buffsize : Z;
  port : Z;
  rssi : Z;
  snr : Z
}.

(** ** The field encoder (SensorPortSchema.cpp) *)

(** [buffer[idx] = b]: a store outside the buffer is undefined. *)
Definition store (buf : list Z) (idx b : Z) : option (list Z) :=
  if (0 <=? idx) && (idx <? Z.of_nat (length buf))
  then Some (<[Z.to_nat idx := b]> buf)
  else None.

(** [data_to_encode] after the validity check (lines 17-32). *)
Definition scaled_data (sensor_data : sensor_value) (valid : bool)
    (sensor_schema : sensorPortSchema) : option Z :=
  if valid then
    Float32.to_int (Float32.mul (to_float sensor_data) (scale_factor sensor_schema))
  else if is_signed sensor_schema then Some (wrap_i32 0x7F7F7F7F)
  else Some (wrap_i32 0xFFFFFFFF).

(** The byte stored by one iteration of the loop (lines 47-52). *)
Definition encoded_byte (data_to_encode j : Z) : option Z :=
  let bitshift := wrap_u8 (j * 8) in
  if 0 <? j then
    match shl_int 0xFF bitshift with
    | Some mask =>
        match shr_int (Z.land data_to_encode mask) bitshift with
        | Some v => Some (wrap_u8 v)
        | None => None
        end
    | None => None
    end
  else Some (wrap_u8 (Z.land data_to_encode 0xFF)).

(** The loop of lines 43-53, from the state [(i, j, buffer)]; it returns
    the final [i] and buffer.  [i] is a [uint8_t], so a loop that ends does
    so within 256 iterations; [fuel] bounds the iterations. *)
Fixpoint encode_loop (fuel : nat) (data_to_encode data_size buf_pos i j : Z)
    (buf : list Z) : option (Z * list Z) :=
  if i <? data_size then
    match fuel with
    | O => None
    | S fuel' =>
        match encoded_byte data_to_encode j with
        | Some b =>
            match store buf (buf_pos + i) b with
            | Some buf' =>
                encode_loop fuel' data_to_encode data_size buf_pos
                  (wrap_u8 (i + 1)) (wrap_u8 (j - 1)) buf'
            | None => None
            end
        | None => None
        end
    end
  else Some (i, buf).

(** [encodeDataWithSchema]: the payload after the call and the log calls
    made, or [None] for an undefined execution. *)
Definition encodeDataWithSchema (sensor_data : sensor_value) (valid : bool)
    (lorawan_payload : lmh_app_data_t) (sensor_schema : sensorPortSchema)
    : option (lmh_app_data_t * list log_event) :=
  let buf_pos := wrap_u8 (buffsize lorawan_payload) in
  match scaled_data sensor_data valid sensor_schema with
  | None => None
  | Some data_to_encode =>
      let trace :=
        if negb (is_signed sensor_schema) && (data_to_encode <? 0)
        then log WARN unsigned_warning else [] in
      match div_int (n_bytes sensor_schema) (n_values sensor_schema) with
      | None => None
      | Some data_size =>
          match encode_loop 256 data_to_encode data_size buf_pos
                  0 (wrap_u8 (data_size - 1)) (buffer lorawan_payload) with
          | None => None
          | Some (i, buf') =>
              Some ({| buffer := buf';
                       buffsize := wrap_u8 (buf_pos + i);
                       port := port lorawan_payload;
                       rssi := rssi lorawan_payload;
                       snr := snr lorawan_payload |}, trace)
          end
      end
  end.

(** The overloads of [sensorPortSchema::encodeData] (lines 65-83) pass
    their arguments on with [this] as the schema. *)
Definition encodeData (this : sensorPortSchema) (sensor_data : sensor_value)
    (valid : bool) (lorawan_payload : lmh_app_data_t) :=
  encodeDataWithSchema sensor_data valid lorawan_payload this.

(** ** What the specification calls the frame, and big-endian packing *)

(** The frame built so far: the first [buffsize] bytes of the buffer. *)
Definition frame (p : lmh_app_data_t) : list Z :=
  take (Z.to_nat (buffsize p)) (buffer p).

(** The big-endian, two's-complement representation of [x] over [n]
    bytes, most significant byte first (the low [8 * n] bits of [x]). *)
Fixpoint be_bytes (n : nat) (x : Z) : list Z :=
  match n with
  | O => []
  | S n' => Z.shiftr x (8 * Z.of_nat n') mod 256 :: be_bytes n' x
  end.

(** The unsigned integer a big-endian byte run stands for. *)
Definition be_combine (bytes : list Z) : Z :=
  fold_left (fun acc b => acc * 256 + b) bytes 0.

(** Bytes per encoded value, [n_bytes / n_values] (line 40). *)
Definition data_size (sensor_schema : sensorPortSchema) : Z :=
  Z.quot (n_bytes sensor_schema) (n_values sensor_schema).

(** The sentinel byte of an invalid reading. *)
Definition sentinel_byte (sensor_schema : sensorPortSchema) : Z :=
  if is_signed sensor_schema then 0x7F else 0xFF.

(** A codec the bit-shift packer handles: a positive number of values and
    at most four bytes per value. *)
Definition codec_ok (sensor_schema : sensorPortSchema) : Prop :=
  0 < n_values sensor_schema /\ 0 <= n_bytes sensor_schema /\
  data_size sensor_schema <= 4.

(** The caller's precondition: the value to encode fits the buffer, and
    the new length fits the [uint8_t] that holds it. *)
Definition room (p : lmh_app_data_t) (sensor_schema : sensorPortSchema) : Prop :=
  0 <= buffsize p /\
  buffsize p + data_size sensor_schema <= Z.of_nat (length (buffer p)) /\
  buffsize p + data_size sensor_schema <= 255.

(** The log calls of one encoder call (lines 34-36). *)
Definition warning_trace (sensor_schema : sensorPortSchema) (data_to_encode : Z)
    : list log_event :=
  if negb (is_signed sensor_schema) && (data_to_encode <? 0)
  then log WARN unsigned_warning else [].

(** The payload a defined call leaves: the bytes of [x] written at the
    old [buffsize], the length advanced, nothing else changed. *)
Definition encoded_payload (p : lmh_app_data_t) (s : sensorPortSchema) (x : Z)
    : lmh_app_data_t :=
  {| buffer := take (Z.to_nat (buffsize p)) (buffer p)
                 ++ be_bytes (Z.to_nat (data_size s)) x
                 ++ drop (Z.to_nat (buffsize p) + Z.to_nat (data_size s)) (buffer p);
     buffsize := buffsize p + data_size s;
     port := port p; rssi := rssi p; snr := snr p |}.

(** ** Port schemas (PortSchema.h) *)

(** The sensor fields, in the order of the flags of [struct portSchema]. *)
Inductive SensorFieldKind :=
| BatteryVoltage
| Temperature
| RelativeHumidity
| AirPressure
| GasResistance
| Location
| CurrentSensor.

Definition canonical_order : list SensorFieldKind :=
  [BatteryVoltage; Temperature; RelativeHumidity; AirPressure;
   GasResistance; Location; CurrentSensor].

(** [struct portSchema]: the port number ([uint8_t]) and one inclusion
    flag per sensor. *)
Record portSchema := {
  port_number : Z;
  sendBatteryVoltage : bool;
  sendTemperature : bool;
  sendRelativeHumidity : bool;
  sendAirPressure : bool;
  sendGasResistance : bool;
  sendLocation : bool;
  sendCurrentSensor : bool
}.

Definition UINT8_MAX : Z := 255.

Definition PORTERROR : portSchema :=
  Build_portSchema UINT8_MAX false false false false false false false.

Definition PORT1 : portSchema :=
  Build_portSchema 1 true false false false false false false.

Definition PORT2 : portSchema :=
  Build_portSchema 2 false true false false false false false.

Definition PORT3 : portSchema :=
  Build_portSchema 3 true true false false false false false.

Definition PORT4 : portSchema :=
  Build_portSchema 4 false true true false false false false.

Definition PORT5 : portSchema :=
  Build_portSchema 5 true true true false false false false.

Definition PORT6 : portSchema :=
  Build_portSchema 6 false true true true false false false.

Definition PORT7 : portSchema :=
  Build_portSchema 7 true true true true false false false.

Definition PORT8 : portSchema :=
  Build_portSchema 8 false true true true true false false.

Definition PORT9 : portSchema :=
  Build_portSchema 9 true true true true true false false.

Definition PORT10 : portSchema :=
  Build_portSchema 10 false false false false false false true.

Definition PORT11 : portSchema :=
  Build_portSchema 11 true false false false false false true.

Definition PORT50 : portSchema :=
  Build_portSchema 50 false false false false false true false.

Definition PORT51 : portSchema :=
  Build_portSchema 51 true false false false false true false.

Definition PORT52 : portSchema :=
  Build_portSchema 52 false true false false false true false.

Definition PORT53 : portSchema :=
  Build_portSchema 53 true true false false false true false.

Definition PORT54 : portSchema :=
  Build_portSchema 54 false true true false false true false.

Definition PORT55 : portSchema :=
  Build_portSchema 55 true true true false false true false.

Definition PORT56 : portSchema :=
  Build_portSchema 56 false true true true false true false.

Definition PORT57 : portSchema :=
  Build_portSchema 57 true true true true false true false.

Definition PORT58 : portSchema :=
  Build_portSchema 58 false true true true true true false.

Definition PORT59 : portSchema :=
  Build_portSchema 59 true true true true true true false.

(** The inclusion flag of a field kind. *)
Definition includes (p : portSchema) (kind : SensorFieldKind) : bool :=
  match kind with
  | BatteryVoltage => sendBatteryVoltage p
  | Temperature => sendTemperature p
  | RelativeHumidity => sendRelativeHumidity p
  | AirPressure => sendAirPressure p
  | GasResistance => sendGasResistance p
  | Location => sendLocation p
  | CurrentSensor => sendCurrentSensor p
  end.

(** The included kinds, in canonical order. *)
Definition included_kinds (p : portSchema) : list SensorFieldKind :=
  List.filter (includes p) canonical_order.

(** The ports PortSchema.h defines, [PORTERROR] apart. *)
Definition registered_ports : list portSchema :=
  [PORT1; PORT2; PORT3; PORT4; PORT5; PORT6; PORT7; PORT8; PORT9; PORT10;
   PORT11; PORT50; PORT51; PORT52; PORT53; PORT54; PORT55; PORT56; PORT57;
   PORT58; PORT59].

Definition registered (n : Z) : Prop :=
  In n (map port_number registered_ports).

(** Modelled from the spec: the definition of [getPort] (declared in
    PortSchema.h) is missing.  The catalog maps a port number to the
    schema defined with that number; an unregistered number yields the
    error schema. *)
Definition getPort (n : Z) : portSchema :=
  default PORTERROR
    (List.find (fun p => port_number p =? n) registered_ports).

(** Modelled from the spec: the definition of [portSchema::operator+]
    (declared in PortSchema.h: the port number is set to 0, and the send
    sensor flags are ||'ed) is missing. *)
Definition operator_plus (this port2 : portSchema) : portSchema :=
  {| port_number := 0;
     sendBatteryVoltage := sendBatteryVoltage this || sendBatteryVoltage port2;
     sendTemperature := sendTemperature this || sendTemperature port2;
     sendRelativeHumidity := sendRelativeHumidity this || sendRelativeHumidity port2;
     sendAirPressure := sendAirPressure this || sendAirPressure port2;
     sendGasResistance := sendGasResistance this || sendGasResistance port2;
     sendLocation := sendLocation this || sendLocation port2;
     sendCurrentSensor := sendCurrentSensor this || sendCurrentSensor port2 |}.

(** ** Encoding a port *)

(** Computations that may be undefined and that log: a result with the
    events logged on the way. *)
Definition logged (A : Type) : Type := option (A * list log_event).

Definition ret {A : Type} (a : A) : logged A := Some (a, []).

Definition bind {A B : Type} (m : logged A) (k : A -> logged B) : logged B :=
  match m with
  | Some (a, t1) =>
      match k a with
      | Some (b, t2) => Some (b, t1 ++ t2)
      | None => None
      end
  | None => None
  end.

Notation "'do' x <- m 'in' k" := (bind m (fun x => k))
  (at level 10, x name, m at level 100, k at level 200).

(** A reading: the value and its validity flag. *)
Definition reading : Type := sensor_value * bool.

(** Modelled from the spec: [struct sensorData] (SensorPortSchema.h) is
    missing.  The snapshot holds, for each field kind, the reading of
    each of its values (a single one unless the codec packs several). *)
Definition sensorData : Type := SensorFieldKind -> nat -> reading.

(** Modelled from the spec: the static codec instances, one per field
    kind (SensorPortSchema.h), are missing; they are a parameter. *)
Definition codec_table : Type := SensorFieldKind -> sensorPortSchema.

(** The readings of one field, one per value of its codec. *)
Definition field_readings (codec : codec_table) (sensor_data : sensorData)
    (kind : SensorFieldKind) : list reading :=
  map (sensor_data kind) (seq 0 (Z.to_nat (n_values (codec kind)))).

(** One field: every value goes through [encodeData], in order. *)
Fixpoint encode_values (schema : sensorPortSchema) (readings : list reading)
    (payload : lmh_app_data_t) : logged lmh_app_data_t :=
  match readings with
  | [] => ret payload
  | (value, valid) :: rest =>
      do payload' <- encodeData schema value valid payload in
      encode_values schema rest payload'
  end.

Fixpoint encode_fields (codec : codec_table) (sensor_data : sensorData)
    (kinds : list SensorFieldKind) (payload : lmh_app_data_t)
    : logged lmh_app_data_t :=
  match kinds with
  | [] => ret payload
  | kind :: rest =>
      do payload' <- encode_values (codec kind)
                       (field_readings codec sensor_data kind) payload in
      encode_fields codec sensor_data rest payload'
  end.

(** Modelled from the spec: the definition of
    [portSchema::encodeSensorDataToPayload] (declared in PortSchema.h) is
    missing.  The included fields are encoded in canonical order from
    [start_pos]; the result is the final write offset and the buffer. *)
Definition encodeSensorDataToPayload (codec : codec_table) (this : portSchema)
    (sensor_data : sensorData) (payload_buffer : list Z) (start_pos : Z)
    : logged (Z * list Z) :=
  let payload := {| buffer := payload_buffer; buffsize := wrap_u8 start_pos;
                    port := port_number this; rssi := 0; snr := 0 |} in
  do payload' <- encode_fields codec sensor_data (included_kinds this) payload in
  ret (buffsize payload', buffer payload').

(** The total width of a list of fields. *)
Definition total_width (codec : codec_table) (kinds : list SensorFieldKind) : Z :=
  foldr (fun kind acc => n_bytes (codec kind) + acc) 0 kinds.

(** The encoded length of a port: the sum of [n_bytes] over its included
    fields. *)
Definition encoded_length (codec : codec_table) (p : portSchema) : Z :=
  total_width codec (included_kinds p).

(** A codec table of the data model: each codec is within the packer's
    range and its width divides evenly among its values. *)
Definition table_ok (codec : codec_table) : Prop :=
  forall kind, codec_ok (codec kind) /\
               n_values (codec kind) * data_size (codec kind) = n_bytes (codec kind).

(** The readings whose conversion to [int] is defined. *)
Definition encodable (schema : sensorPortSchema) (readings : list reading)
    : Prop :=
  Forall (fun r => scaled_data (fst r) (snd r) schema <> None) readings.

(** Every reading of an included field can be converted. *)
Definition snapshot_encodable (codec : codec_table) (this : portSchema)
    (sensor_data : sensorData) : Prop :=
  forall kind, includes this kind = true ->
    encodable (codec kind) (field_readings codec sensor_data kind).

(** ** Decoding a field *)

(** The sentinel pattern of a field: the sentinel byte over its width. *)
Definition sentinel_pattern (schema : sensorPortSchema) : Z :=
  be_combine (replicate (Z.to_nat (data_size schema)) (sentinel_byte schema)).

(** The two's-complement reading of [u] over [n_bits] bits. *)
Definition to_signed (n_bits u : Z) : Z :=
  if 2 * u <? 2 ^ n_bits then u else u - 2 ^ n_bits.

(** The big-endian integer of the [data_size] bytes at [buf_pos]. *)
Definition reassemble (schema : sensorPortSchema) (buf : list Z) (buf_pos : Z)
    : Z :=
  be_combine (take (Z.to_nat (data_size schema)) (drop (Z.to_nat buf_pos) buf)).

(** The reassembled integer, read as signed when the codec is signed. *)
Definition decoded_integer (schema : sensorPortSchema) (raw : Z) : Z :=
  if is_signed schema then to_signed (8 * data_size schema) raw else raw.

(** Modelled from the spec: [sensorPortSchema::decodeData] is missing.
    The big-endian integer is reassembled from the bytes of the field,
    divided by [scale_factor] to recover the reading, and the reading is
    flagged invalid ([was_valid = false]) when the integer equals the
    sentinel pattern of the field's width and signedness. *)
Definition decodeData (schema : sensorPortSchema) (buf : list Z) (buf_pos : Z)
    : Float32.float * bool :=
  let raw := reassemble schema buf buf_pos in
  (Float32.div (Float32.of_int (decoded_integer schema raw)) (scale_factor schema),
   negb (raw =? sentinel_pattern schema)).

(** ** Statements about one encoder call *)

(** The call is defined and appends [bytes] to the frame. *)
Definition appends (sensor_data : sensor_value) (valid : bool)
    (p : lmh_app_data_t) (schema : sensorPortSchema) (bytes : list Z) : Prop :=
  exists p' trace,
    encodeDataWithSchema sensor_data valid p schema = Some (p', trace) /\
    frame p' = frame p ++ bytes /\
    buffsize p' = buffsize p + Z.of_nat (length bytes).

(** The call is defined, appends exactly [width] bytes and advances
    [buffsize] by [width]. *)
Definition appends_exactly (width : Z) (sensor_data : sensor_value)
    (valid : bool) (p : lmh_app_data_t) (schema : sensorPortSchema) : Prop :=
  exists bytes,
    appends sensor_data valid p schema bytes /\ Z.of_nat (length bytes) = width.

(** The same codec, marked signed. *)
Definition as_signed (schema : sensorPortSchema) : sensorPortSchema :=
  {| n_bytes := n_bytes schema; n_values := n_values schema;
     scale_factor := scale_factor schema; is_signed := true |}.

(** ** Sample codecs and payloads *)

Definition batteryVoltage_like : sensorPortSchema :=
  {| n_bytes := 2; n_values := 1;
     scale_factor := Float32.of_int 100; is_signed := false |}.

Definition temperature_like : sensorPortSchema :=
  {| n_bytes := 2; n_values := 1;
     scale_factor := Float32.of_int 100; is_signed := true |}.

Definition location_like : sensorPortSchema :=
  {| n_bytes := 8; n_values := 2;
     scale_factor := Float32.of_int 10000; is_signed := true |}.

Definition pressure_like : sensorPortSchema :=
  {| n_bytes := 4; n_values := 1;
     scale_factor := Float32.of_int 100; is_signed := false |}.

(** A codec beyond the packer's range: five bytes for one value. *)
Definition five_byte_like : sensorPortSchema :=
  {| n_bytes := 5; n_values := 1;
     scale_factor := Float32.of_int 1; is_signed := true |}.

(** 3.85 as a [float]: 16148070 * 2^-22. *)
Definition f3_85 : Float32.float := S754_finite false 16148070 (-22).

(** -0.5 as a [float]. *)
Definition minus_half : Float32.float := S754_finite true 8388608 (-24).

Definition empty_payload (capacity : nat) : lmh_app_data_t :=
  {| buffer := replicate capacity 0; buffsize := 0; port := 1; rssi := 0; snr := 0 |}.

(** A payload that already holds a two-byte header. *)
Definition started_payload : lmh_app_data_t :=
  {| buffer := [0xAA; 0xBB; 1; 2; 3; 4; 5; 6]; buffsize := 2;
     port := 7; rssi := -60; snr := 9 |}.

(** ** The round trip of a valid reading *)

(** The scaled integer fits the field: the range of [data_size] bytes,
    signed or unsigned as the codec says. *)
Definition fits_field (schema : sensorPortSchema) (x : Z) : Prop :=
  if is_signed schema
  then - 2 ^ (8 * data_size schema) <= 2 * x < 2 ^ (8 * data_size schema)
  else 0 <= x < 2 ^ (8 * data_size schema).

(** Encode a valid reading at the end of the frame, decode it there. *)
Definition roundtrip (sensor_data : sensor_value) (p : lmh_app_data_t)
    (schema : sensorPortSchema) : option (Float32.float * bool) :=
  match encodeDataWithSchema sensor_data true p schema with
  | Some (p', _) => Some (decodeData schema (buffer p') (buffsize p))
  | None => None
  end.

(** The decoded value is within [1 / scale_factor] of the original. *)
Definition within_tolerance (schema : sensorPortSchema)
    (original decoded : Float32.float) : Prop :=
  (Qabs (Float32.to_Q decoded - Float32.to_Q original)
   <= / Float32.to_Q (scale_factor schema))%Q.

(** The round trip of a valid reading stays within the tolerance. *)
Definition roundtrip_within_tolerance (sensor_data : sensor_value)
    (p : lmh_app_data_t) (schema : sensorPortSchema) : Prop :=
  exists decoded was_valid,
    roundtrip sensor_data p schema = Some (decoded, was_valid) /\
    within_tolerance schema (to_float sensor_data) decoded.

(** 12000021 as a [float]. *)
Definition f12000021 : Float32.float := S754_finite false 12000021 0.

(** A codec table and a snapshot for the executions below. *)
Definition sample_codecs : codec_table :=
  fun kind =>
    match kind with
    | BatteryVoltage => batteryVoltage_like
    | Temperature => temperature_like
    | RelativeHumidity => batteryVoltage_like
    | AirPressure => pressure_like
    | GasResistance => pressure_like
    | Location => location_like
    | CurrentSensor => batteryVoltage_like
    end.

Definition sample_snapshot : sensorData :=
  fun kind i =>
    match kind, i with
    | BatteryVoltage, _ => (of_float f3_85, true)
    | Location, O => (of_float minus_half, true)
    | Location, _ => (of_int 7, true)
    | Temperature, _ => (of_float minus_half, false)
    | _, _ => (of_uint8 0, false)
    end.

(** ** The battery state of charge (AnalogSensor.cpp) *)

Definition SOC_MV_LOOKUP_SIZE : Z := 11.

(** The lookup table of lines 100-112: the voltage (mV) at 0%, 10%, ...,
    100%.  Its literals are integers, which a [float] holds exactly. *)
Definition soc_mv_lookup : list Float32.float :=
  map Float32.of_int
    [3300; 3584; 3678; 3725; 3748; 3775; 3815; 3873; 3951; 4036; 4200].

(** [soc_mv_lookup[i]]; the indices the code uses stay inside the table. *)
Definition soc_mv (i : Z) : Float32.float :=
  nth (Z.to_nat i) soc_mv_lookup S754_nan.

(** The loop of lines 119-128 from index [i]: the state is
    [(high_mv, low_mv, vbat_soc)]; the first entry at or above [mvolts]
    sets it and ends the loop. *)
Fixpoint soc_loop (fuel : nat) (mvolts : Float32.float) (i : Z)
    (st : Float32.float * Float32.float * Float32.float)
    : Float32.float * Float32.float * Float32.float :=
  if i <? SOC_MV_LOOKUP_SIZE then
    match fuel with
    | O => st
    | S fuel' =>
        if Float32.leb mvolts (soc_mv i)
        then (soc_mv i, soc_mv (i - 1),
              Float32.mul (Float32.of_int (i - 1)) (Float32.of_int 10))
        else soc_loop fuel' mvolts (i + 1) st
    end
  else st.

(** The range correction of lines 132-136.  ([vbat_soc > 100.0] compares
    as [double]; a [float] and 100 convert exactly, so the comparison is
    that of the [float]s.) *)
Definition correct_range (vbat_soc : Float32.float) : Float32.float :=
  if Float32.ltb vbat_soc (Float32.of_int 0) then Float32.of_int 0
  else if Float32.ltb (Float32.of_int 100) vbat_soc then Float32.of_int 100
  else vbat_soc.

(** [BatteryLevel::mvToSoC]: the state of charge and the log call made
    (the event holds the format; its arguments are [mvolts] and the
    result). *)
Definition mvToSoC (mvolts : Float32.float)
    : Float32.float * list log_event :=
  let '(high_mv, low_mv, vbat_soc) :=
    soc_loop 11 mvolts 1
      (soc_mv (SOC_MV_LOOKUP_SIZE - 1), soc_mv (SOC_MV_LOOKUP_SIZE - 2),
       Float32.of_int 100) in
  let vbat_soc :=
    Float32.add vbat_soc
      (Float32.div
         (Float32.mul (Float32.sub mvolts low_mv) (Float32.of_int 10))
         (Float32.sub high_mv low_mv)) in
  (correct_range vbat_soc, log DEBUG "LIPO: %.2f mV = %.2f%%").

(** Finite non-zero floats, and floats that are zero or finite. *)
Definition is_finite (x : Float32.float) : bool :=
  match x with S754_finite _ _ _ => true | _ => false end.

Definition is_zero_or_finite (x : Float32.float) : bool :=
  match x with S754_finite _ _ _ | S754_zero _ => true | _ => false end.

(** A state of the search that interpolates between two distinct table
    entries from a finite base. *)
Definition soc_state_ok
    (st : Float32.float * Float32.float * Float32.float) : bool :=
  let '(high_mv, low_mv, vbat_soc) := st in
  is_finite low_mv && is_finite (Float32.sub high_mv low_mv)
  && is_zero_or_finite vbat_soc.

(** ** Timestamps of the log (Logging.cpp) *)

(** The macros [MS_IN_HOUR], [MS_IN_MINUTE] and [MS_IN_SECOND] are
    defined in Logging.h, which is missing: they are a parameter. *)
Record ms_units := {
  MS_IN_HOUR : Z;
  MS_IN_MINUTE : Z;
  MS_IN_SECOND : Z
}.

(** The units of the usual clock. *)
Definition clock_units : ms_units :=
  {| MS_IN_HOUR := 3600000; MS_IN_MINUTE := 60000; MS_IN_SECOND := 1000 |}.

(** The fields [HH], [MM], [SS] and [ms] of lines 114-118, computed on
    [unsigned long]; a division by zero is undefined. *)
Definition timestamp_fields (u : ms_units) (timestamp : Z)
    : option (Z * Z * Z * Z) :=
  if (MS_IN_HOUR u =? 0) || (MS_IN_MINUTE u =? 0) || (MS_IN_SECOND u =? 0)
  then None
  else Some (timestamp / MS_IN_HOUR u,
             (timestamp mod MS_IN_HOUR u) / MS_IN_MINUTE u,
             (timestamp mod MS_IN_MINUTE u) / MS_IN_SECOND u,
             timestamp mod MS_IN_SECOND u).

(** [%lu]: the decimal digits of an unsigned number. *)
Definition dec (n : Z) : string :=
  NilZero.string_of_uint (N.to_uint (Z.to_N n)).

Fixpoint zeros (k : nat) : string :=
  match k with
  | O => EmptyString
  | S k' => String "0"%char (zeros k')
  end.

(** [%02lu], [%03lu]: the digits, with zeros in front up to [width]. *)
Definition pad0 (width : nat) (n : Z) : string :=
  String.append (zeros (width - String.length (dec n))) (dec n).

(** What [snprintf] leaves in a buffer of [buffer_len] characters: the
    text cut to [buffer_len - 1] characters (a terminator follows);
    nothing for a length of zero.  A negative length is not modelled. *)
Definition snprintf (buffer_len : Z) (text : string) : option string :=
  if buffer_len <? 0 then None
  else if buffer_len =? 0 then Some EmptyString
  else Some (substring 0 (Z.to_nat (buffer_len - 1)) text).

(** The text of the format ["%lu:%02lu:%02lu.%03lu"]. *)
Definition timestamp_text (fields : Z * Z * Z * Z) : string :=
  let '(HH, MM, SS, ms) := fields in
  String.append (dec HH)
    (String ":"%char (String.append (pad0 2 MM)
       (String ":"%char (String.append (pad0 2 SS)
          (String "."%char (pad0 3 ms)))))).

(** [formatTimestamp]: the content of [buffer] after the call. *)
Definition formatTimestamp (u : ms_units) (timestamp : Z) (buffer_len : Z)
    : option string :=
  match timestamp_fields u timestamp with
  | Some fields => snprintf buffer_len (timestamp_text fields)
  | None => None
  end.

(** ** The sinks of the log (Logging.cpp) *)

(** The flag [g_BleUartConnected] and the lines printed so far on
    [Serial] and on [g_BleUart]. *)
Record log_sinks := {
  g_BleUartConnected : bool;
  serial_lines : list string;
  ble_lines : list string
}.

(** At start the flag is false and nothing is printed. *)
Definition initial_sinks : log_sinks :=
  {| g_BleUartConnected := false; serial_lines := []; ble_lines := [] |}.

(** [printLog]: to Bluetooth when connected, and to [Serial]. *)
Definition printLog (line : string) (st : log_sinks) : log_sinks :=
  {| g_BleUartConnected := g_BleUartConnected st;
     serial_lines := serial_lines st ++ [line];
     ble_lines := if g_BleUartConnected st
                  then ble_lines st ++ [line] else ble_lines st |}.

Definition ble_connect_callback (st : log_sinks) : log_sinks :=
  {| g_BleUartConnected := true;
     serial_lines := serial_lines st ++ ["BLE client connected"%string];
     ble_lines := ble_lines st |}.

Definition ble_disconnect_callback (st : log_sinks) : log_sinks :=
  {| g_BleUartConnected := false;
     serial_lines := serial_lines st ++ ["BLE client disconnected"%string];
     ble_lines := ble_lines st |}.

(** The calls that reach the sinks, in the order they are made. *)
Inductive sink_call :=
| call_printLog (line : string)
| call_ble_connect
| call_ble_disconnect.

Definition sink_step (st : log_sinks) (c : sink_call) : log_sinks :=
  match c with
  | call_printLog line => printLog line st
  | call_ble_connect => ble_connect_callback st
  | call_ble_disconnect => ble_disconnect_callback st
  end.

Definition run_sinks (calls : list sink_call) (st : log_sinks) : log_sinks :=
  fold_left sink_step calls st.

(** The lines printed while the flag is set, from a state on. *)
Fixpoint printed_while_connected (connected : bool) (calls : list sink_call)
    : list string :=
  match calls with
  | [] => []
  | call_printLog line :: rest =>
      if connected then line :: printed_while_connected connected rest
      else printed_while_connected connected rest
  | call_ble_connect :: rest => printed_while_connected true rest
  | call_ble_disconnect :: rest => printed_while_connected false rest
  end.

(** ** Floats that hold an integer *)

(** [x] is the normal form of the non-zero integer [z] below [2 ^ 24]: a
    24-bit mantissa that is [|z|] shifted left. *)
Definition holds_integer (x : Float32.float) (z : Z) : Prop :=
  match x with
  | S754_finite s m e =>
      s = (z <? 0) /\ 2 ^ 23 <= Z.pos m < 2 ^ 24 /\ -23 <= e <= 0 /\
      Z.pos m = Z.abs z * 2 ^ (- e)
  | _ => False
  end.

(** [mrs] is [M] with its last [k] bits shifted out: [shr_m] holds the
    bits kept, [shr_r] says whether the bits dropped reach half a unit,
    [shr_s] whether they are neither nothing nor a half. *)
Definition shifted_out (M k : Z) (mrs : shr_record) : Prop :=
  exists rest,
    M = shr_m mrs * 2 ^ k + rest /\ 0 <= rest < 2 ^ k /\ 0 <= shr_m mrs /\
    shr_r mrs = (2 ^ k <=? 2 * rest) /\
    shr_s mrs = negb ((rest =? 0) || (2 * rest =? 2 ^ k)).

(** Floats that are zero or below: a zero of either sign, a negative
    number, minus infinity. *)
Definition is_nonpositive (x : Float32.float) : bool :=
  match x with
  | S754_zero _ => true
  | S754_finite s _ _ | S754_infinity s => s
  | S754_nan => false
  end.

(** ** The flags of a port *)

Definition flags (q : portSchema) : list bool :=
  map (includes q) canonical_order.

(** ** Further sample data *)

(** A payload whose buffer is longer than a [uint8_t] length can say, with
    254 bytes in use. *)
Definition long_payload : lmh_app_data_t :=
  {| buffer := replicate 300 0; buffsize := 254; port := 1; rssi := 0; snr := 0 |}.

(** 326.39 as a [float]. *)
Definition f326_39 : Float32.float := S754_finite false 10695148 (-15).

(** 656.36 as a [float]. *)
Definition f656_36 : Float32.float := S754_finite false 10753802 (-14).

(** * Properties *)

(** Closed arithmetic facts are settled by evaluation. *)
Ltac concrete := repeat split; vm_compute; congruence.

(** ** Bytes of an integer *)

Section Bytes.

Lemma wrap_u8_small z : 0 <= z < 256 -> wrap_u8 z = z.
Proof. intros H. unfold wrap_u8. apply Z.mod_small. exact H. Qed.

Lemma byte_range x k : 0 <= Z.shiftr x k mod 256 < 256.
Proof. apply Z.mod_pos_bound. lia. Qed.

(** Masking with a run of ones that covers bits [k .. k+7] does not
    change the byte read at bit [k]. *)
Lemma masked_byte x mask k :
  0 <= k ->
  (forall n, 0 <= n < 8 -> Z.testbit mask (n + k) = true) ->
  Z.shiftr (Z.land x mask) k mod 256 = Z.shiftr x k mod 256.
Proof.
  intros Hk Hmask.
  change 256 with (2 ^ 8).
  apply Z.bits_inj'. intros n Hn.
  destruct (Z.lt_ge_cases n 8) as [Hlt | Hge].
  - rewrite !Z.mod_pow2_bits_low by lia.
    rewrite !Z.shiftr_spec by lia.
    rewrite Z.land_spec, Hmask by lia.
    apply andb_true_r.
  - rewrite !Z.mod_pow2_bits_high by lia. reflexivity.
Qed.

Lemma ones_shifted_bits k n :
  0 <= k -> 0 <= n < 8 -> Z.testbit (Z.shiftl 0xFF k) (n + k) = true.
Proof.
  intros Hk Hn.
  rewrite Z.shiftl_spec by lia.
  replace (n + k - k) with n by lia.
  change 0xFF with (Z.ones 8).
  apply Z.ones_spec_low. lia.
Qed.

Lemma top_mask_bits n :
  0 <= n < 8 -> Z.testbit (Z.shiftl (-1) 24) (n + 24) = true.
Proof.
  intros Hn.
  rewrite Z.shiftl_spec by lia.
  apply Z.bits_m1. lia.
Qed.

(** Each iteration stores the byte of [data_to_encode] at bit [8 * j]. *)
Lemma encoded_byte_spec x j :
  0 <= j <= 3 ->
  encoded_byte x j = Some (Z.shiftr x (8 * j) mod 256).
Proof.
  intros Hj.
  assert (Hc : j = 0 \/ j = 1 \/ j = 2 \/ j = 3) by lia.
  destruct Hc as [-> | [-> | [-> | ->]]]; cbn.
  - unfold wrap_u8. rewrite Z.shiftr_0_r.
    change 255 with (Z.ones 8). rewrite Z.land_ones by lia.
    rewrite Z.mod_mod by lia. reflexivity.
  - unfold wrap_u8. f_equal.
    apply (masked_byte x (Z.shiftl 0xFF 8) 8); [lia |].
    intros n Hn. apply ones_shifted_bits; lia.
  - unfold wrap_u8. f_equal.
    apply (masked_byte x (Z.shiftl 0xFF 16) 16); [lia |].
    intros n Hn. apply ones_shifted_bits; lia.
  - unfold wrap_u8. f_equal.
    apply (masked_byte x (Z.shiftl (-1) 24) 24); [lia |].
    intros n Hn. apply top_mask_bits; lia.
Qed.

Lemma length_be_bytes n x : length (be_bytes n x) = n.
Proof. induction n as [| n IH]; simpl; [reflexivity | now rewrite IH]. Qed.

(** Byte [i] of the run is the byte of [x] at bit [8 * (n - 1 - i)]:
    the most significant byte comes first. *)
Lemma be_bytes_lookup x (n i : nat) :
  (i < n)%nat ->
  be_bytes n x !! i
  = Some (Z.shiftr x (8 * (Z.of_nat n - 1 - Z.of_nat i)) mod 256).
Proof.
  revert i. induction n as [| n IH]; intros i Hi; [lia |].
  destruct i as [| i]; cbn [be_bytes lookup list_lookup].
  - do 3 f_equal. lia.
  - rewrite IH by lia. do 3 f_equal. lia.
Qed.

Lemma be_bytes_range n x : Forall (fun b => 0 <= b < 256) (be_bytes n x).
Proof.
  induction n as [| n IH]; simpl; constructor; [apply byte_range | exact IH].
Qed.

End Bytes.

(** ** The encoder's loop and its result *)

Section Encoder.

Lemma data_size_nonneg s : codec_ok s -> 0 <= data_size s.
Proof.
  intros (Hv & Hb & _). unfold data_size.
  apply Z.quot_pos; lia.
Qed.

Lemma div_int_data_size s :
  codec_ok s -> div_int (n_bytes s) (n_values s) = Some (data_size s).
Proof.
  intros (Hv & _). unfold div_int.
  destruct (Z.eqb_spec (n_values s) 0) as [E | _]; [lia | reflexivity].
Qed.

Lemma store_inside buf idx b :
  0 <= idx < Z.of_nat (length buf) ->
  store buf idx b = Some (<[Z.to_nat idx := b]> buf).
Proof.
  intros [H0 H1]. unfold store.
  apply Z.leb_le in H0. apply Z.ltb_lt in H1.
  now rewrite H0, H1.
Qed.

(** With [k] iterations left, the loop writes the [k] low bytes of
    [data_to_encode], most significant first, and stops at [i = data_size]. *)
Lemma encode_loop_spec x ds bp :
  0 <= bp -> ds <= 4 ->
  forall (k fuel : nat) (i : Z) (buf : list Z),
    (k <= fuel)%nat -> 0 <= i -> i + Z.of_nat k = ds ->
    bp + ds <= Z.of_nat (length buf) ->
    encode_loop fuel x ds bp i (wrap_u8 (Z.of_nat k - 1)) buf =
    Some (ds, take (Z.to_nat (bp + i)) buf ++ be_bytes k x
                ++ drop (Z.to_nat (bp + i) + k) buf).
Proof.
  intros Hbp Hds.
  induction k as [| k IH]; intros fuel i buf Hfuel Hi Hik Hlen.
  - assert (i = ds) as -> by lia.
    destruct fuel; cbn [encode_loop]; rewrite Z.ltb_irrefl;
      cbn [be_bytes app]; rewrite Nat.add_0_r, take_drop; reflexivity.
  - destruct fuel as [| fuel]; [lia |].
    cbn [encode_loop].
    assert (Hlt : (i <? ds) = true) by (apply Z.ltb_lt; lia).
    rewrite Hlt.
    replace (Z.of_nat (S k) - 1) with (Z.of_nat k) by lia.
    rewrite (wrap_u8_small (Z.of_nat k)) by lia.
    rewrite encoded_byte_spec by lia.
    rewrite store_inside by lia.
    rewrite (wrap_u8_small (i + 1)) by lia.
    rewrite IH; [| lia | lia | lia | rewrite length_insert; lia].
    f_equal. f_equal.
    set (b := Z.shiftr x (8 * Z.of_nat k) mod 256).
    set (n := Z.to_nat (bp + i)).
    replace (Z.to_nat (bp + (i + 1))) with (S n) by (subst n; lia).
    assert (Hn : (n < length buf)%nat) by (subst n; lia).
    rewrite (take_S_r _ n b) by (apply list_lookup_insert_eq; exact Hn).
    rewrite take_insert_ge by lia.
    rewrite drop_insert_lt by lia.
    rewrite <- app_assoc. cbn [be_bytes app].
    replace (S n + k)%nat with (n + S k)%nat by lia.
    reflexivity.
Qed.

(** A call within its preconditions is defined, and its result is
    [encoded_payload]. *)
Lemma encode_spec v valid p s x :
  codec_ok s -> room p s ->
  scaled_data v valid s = Some x ->
  encodeDataWithSchema v valid p s =
  Some (encoded_payload p s x, warning_trace s x).
Proof.
  intros Hok (Hb0 & Hcap & H255) Hx.
  pose proof (data_size_nonneg s Hok) as Hds0.
  destruct Hok as (Hv & Hnb & Hds4).
  unfold encodeDataWithSchema.
  rewrite Hx, (div_int_data_size s) by (repeat split; assumption).
  rewrite (wrap_u8_small (buffsize p)) by lia.
  pose proof (encode_loop_spec x (data_size s) (buffsize p) Hb0 Hds4
                (Z.to_nat (data_size s)) 256 0 (buffer p)) as Hloop.
  rewrite Z2Nat.id in Hloop by lia.
  rewrite Hloop by lia.
  rewrite (wrap_u8_small (buffsize p + data_size s)) by lia.
  rewrite Z.add_0_r. reflexivity.
Qed.

(** Outside the preconditions the call is undefined: a value of five
    bytes shifts an [int] by 32 bits, and a full buffer is overrun. *)
Lemma wide_codec_undefined :
  encodeDataWithSchema (of_int 1) true (empty_payload 8) five_byte_like = None.
Proof. reflexivity. Qed.

Lemma full_buffer_undefined :
  encodeDataWithSchema (of_int 1) true (empty_payload 1) batteryVoltage_like
  = None.
Proof. reflexivity. Qed.

End Encoder.

(** ** The frame after a call *)

Section Frame.

Lemma frame_encoded p s x :
  codec_ok s -> room p s ->
  frame (encoded_payload p s x)
  = frame p ++ be_bytes (Z.to_nat (data_size s)) x.
Proof.
  intros Hok (Hb0 & Hcap & _).
  pose proof (data_size_nonneg s Hok) as Hds.
  unfold frame, encoded_payload; cbn [buffer buffsize].
  rewrite app_assoc.
  apply take_app_length'.
  rewrite length_app, length_take_le, length_be_bytes by lia.
  lia.
Qed.

Lemma length_encoded p s x :
  codec_ok s -> room p s ->
  length (buffer (encoded_payload p s x)) = length (buffer p).
Proof.
  intros Hok (Hb0 & Hcap & _).
  pose proof (data_size_nonneg s Hok) as Hds.
  unfold encoded_payload; cbn [buffer].
  rewrite !length_app, length_take_le, length_be_bytes, length_drop by lia.
  lia.
Qed.

Lemma lookup_encoded_outside p s x (k : nat) :
  codec_ok s -> room p s ->
  (k < Z.to_nat (buffsize p) \/ Z.to_nat (buffsize p + data_size s) <= k)%nat ->
  buffer (encoded_payload p s x) !! k = buffer p !! k.
Proof.
  intros Hok (Hb0 & Hcap & _) Hk.
  pose proof (data_size_nonneg s Hok) as Hds.
  unfold encoded_payload; cbn [buffer].
  set (n := Z.to_nat (buffsize p)) in *.
  set (d := Z.to_nat (data_size s)).
  assert (Hn : length (take n (buffer p)) = n)
    by (apply length_take_le; subst n; lia).
  destruct Hk as [Hlt | Hge].
  - rewrite lookup_app_l by lia.
    apply lookup_take_lt. exact Hlt.
  - assert (Hk' : (n + d <= k)%nat) by (subst n d; lia).
    rewrite lookup_app_r by lia.
    rewrite lookup_app_r by (rewrite length_be_bytes; lia).
    rewrite lookup_drop, Hn, length_be_bytes.
    f_equal. lia.
Qed.

Lemma encode_appends v valid p s x :
  codec_ok s -> room p s ->
  scaled_data v valid s = Some x ->
  appends v valid p s (be_bytes (Z.to_nat (data_size s)) x).
Proof.
  intros Hok Hroom Hx.
  exists (encoded_payload p s x), (warning_trace s x).
  split; [apply encode_spec; assumption |].
  split; [apply frame_encoded; assumption |].
  rewrite length_be_bytes.
  pose proof (data_size_nonneg s Hok).
  cbn [encoded_payload buffsize]. lia.
Qed.

End Frame.

(** ** Sentinel bytes *)

Section Sentinel.

Lemma scaled_data_invalid s v :
  scaled_data v false s
  = Some (if is_signed s then wrap_i32 0x7F7F7F7F else wrap_i32 0xFFFFFFFF).
Proof. unfold scaled_data. destruct (is_signed s); reflexivity. Qed.

Lemma be_bytes_sentinel s v (n : nat) x :
  (n <= 4)%nat ->
  scaled_data v false s = Some x ->
  be_bytes n x = replicate n (sentinel_byte s).
Proof.
  intros Hn Hx. unfold scaled_data, sentinel_byte in *.
  destruct (is_signed s); injection Hx as <-;
    do 5 (destruct n as [| n]; [reflexivity |]); lia.
Qed.

End Sentinel.

(** ** The port catalog *)

Section Catalog.

Lemma find_unregistered (ports : list portSchema) n :
  ~ In n (map port_number ports) ->
  List.find (fun p => port_number p =? n) ports = None.
Proof.
  induction ports as [| q ports IH]; intros Hn; [reflexivity |].
  cbn [List.find].
  destruct (Z.eqb_spec (port_number q) n) as [E | _].
  - exfalso. apply Hn. left. exact E.
  - apply IH. intros Hin. apply Hn. right. exact Hin.
Qed.

Lemma find_registered (ports : list portSchema) n :
  In n (map port_number ports) ->
  exists q, List.find (fun p => port_number p =? n) ports = Some q /\
            port_number q = n /\ In q ports.
Proof.
  induction ports as [| q ports IH]; intros Hn; [destruct Hn |].
  cbn [List.find].
  destruct (Z.eqb_spec (port_number q) n) as [E | NE].
  - exists q. repeat split; [exact E | now left].
  - destruct Hn as [E | Hin]; [contradiction |].
    destruct (IH Hin) as (q' & Hf & Hq & Hq').
    exists q'. repeat split; [exact Hf | exact Hq | now right].
Qed.

Lemma error_port_unregistered : ~ registered 255.
Proof.
  unfold registered. cbn. intros H.
  repeat (destruct H as [H | H]; [discriminate H |]). exact H.
Qed.

(** A registered number is answered with the schema of that number. *)
Lemma getPort_registered n :
  registered n -> port_number (getPort n) = n /\ In (getPort n) registered_ports.
Proof.
  intros Hn. unfold getPort.
  destruct (find_registered registered_ports n Hn) as (q & -> & Hq & Hin).
  split; assumption.
Qed.

Lemma encoded_length_PORTERROR codec : encoded_length codec PORTERROR = 0.
Proof. reflexivity. Qed.

End Catalog.

(** ** Encoding a port *)

Section PortEncode.

Variable codec : codec_table.
Hypothesis codec_table_ok : table_ok codec.
Variable sensor_data : sensorData.

Lemma encode_values_spec s readings :
  codec_ok s ->
  forall p,
    0 <= buffsize p ->
    buffsize p + Z.of_nat (length readings) * data_size s
      <= Z.of_nat (length (buffer p)) ->
    buffsize p + Z.of_nat (length readings) * data_size s <= 255 ->
    encodable s readings ->
    exists p' trace,
      encode_values s readings p = Some (p', trace) /\
      buffsize p' = buffsize p + Z.of_nat (length readings) * data_size s /\
      length (buffer p') = length (buffer p).
Proof.
  intros Hok. pose proof (data_size_nonneg s Hok) as Hds.
  induction readings as [| [v valid] rest IH]; intros p Hb Hcap H255 Henc.
  - exists p, []. cbn. repeat split; lia.
  - apply Forall_cons in Henc as [Hv Hrest].
    cbn [fst snd] in Hv.
    destruct (scaled_data v valid s) as [x |] eqn:Hx; [| congruence].
    cbn [length] in Hcap, H255.
    assert (Hroom : room p s) by (unfold room; nia).
    cbn [encode_values]. unfold encodeData, bind.
    rewrite (encode_spec v valid p s x Hok Hroom Hx).
    destruct (IH (encoded_payload p s x)) as (p' & t & Heq & Hb' & Hl');
      [cbn; lia | rewrite length_encoded by assumption; cbn; nia
      | cbn; nia | exact Hrest |].
    rewrite Heq. exists p', (warning_trace s x ++ t).
    split; [reflexivity |].
    rewrite Hb', Hl', length_encoded by assumption.
    cbn [encoded_payload buffsize length]. split; [nia | reflexivity].
Qed.

Lemma total_width_nonneg kinds : 0 <= total_width codec kinds.
Proof.
  induction kinds as [| kind kinds IH]; cbn; [lia |].
  destruct (codec_table_ok kind) as ((_ & Hb & _) & _).
  unfold total_width in IH. lia.
Qed.

Lemma length_field_readings kind :
  Z.of_nat (length (field_readings codec sensor_data kind))
  * data_size (codec kind) = n_bytes (codec kind).
Proof.
  unfold field_readings.
  rewrite length_map, length_seq.
  destruct (codec_table_ok kind) as ((Hv & _) & Hdiv).
  rewrite Z2Nat.id by lia. exact Hdiv.
Qed.

Lemma encode_fields_spec kinds :
  forall p,
    0 <= buffsize p ->
    buffsize p + total_width codec kinds <= Z.of_nat (length (buffer p)) ->
    buffsize p + total_width codec kinds <= 255 ->
    (forall kind, In kind kinds ->
       encodable (codec kind) (field_readings codec sensor_data kind)) ->
    exists p' trace,
      encode_fields codec sensor_data kinds p = Some (p', trace) /\
      buffsize p' = buffsize p + total_width codec kinds /\
      length (buffer p') = length (buffer p).
Proof.
  induction kinds as [| kind kinds IH]; intros p Hb Hcap H255 Henc.
  - exists p, []. cbn. repeat split; lia.
  - pose proof (total_width_nonneg kinds) as Hrest.
    pose proof (length_field_readings kind) as Hlen.
    destruct (codec_table_ok kind) as ((_ & Hnb & _) & _).
    change (total_width codec (kind :: kinds))
      with (n_bytes (codec kind) + total_width codec kinds) in *.
    destruct (encode_values_spec (codec kind)
                (field_readings codec sensor_data kind)
                (proj1 (codec_table_ok kind)) p)
      as (p1 & t1 & H1 & Hb1 & Hl1);
      [lia | lia | lia | apply Henc; now left |].
    cbn [encode_fields]. unfold bind at 1. rewrite H1.
    destruct (IH p1) as (p2 & t2 & H2 & Hb2 & Hl2);
      [lia | lia | lia | intros k Hk; apply Henc; now right |].
    rewrite H2. exists p2, (t1 ++ t2).
    split; [reflexivity |]. split; lia.
Qed.

End PortEncode.

(** ** Decoding what the encoder wrote *)

Section Decode.

Lemma fold_be_bytes (n : nat) x acc :
  fold_left (fun a b => a * 256 + b) (be_bytes n x) acc
  = acc * 2 ^ (8 * Z.of_nat n) + x mod 2 ^ (8 * Z.of_nat n).
Proof.
  revert acc. induction n as [| n IH]; intros acc.
  - cbn. rewrite Z.mod_1_r. lia.
  - cbn [be_bytes fold_left]. rewrite IH.
    rewrite Z.shiftr_div_pow2 by lia.
    replace (8 * Z.of_nat (S n)) with (8 * Z.of_nat n + 8) by lia.
    rewrite Z.pow_add_r by lia.
    change (2 ^ 8) with 256.
    assert (Hp : 0 < 2 ^ (8 * Z.of_nat n)) by (apply Z.pow_pos_nonneg; lia).
    rewrite (Z.rem_mul_r x (2 ^ (8 * Z.of_nat n)) 256) by lia.
    ring.
Qed.

(** Read big-endian, the bytes of [x] give its low [8 * n] bits. *)
Lemma be_combine_be_bytes (n : nat) x :
  be_combine (be_bytes n x) = x mod 2 ^ (8 * Z.of_nat n).
Proof. unfold be_combine. rewrite fold_be_bytes. lia. Qed.

Lemma reassemble_encoded p s x :
  codec_ok s -> room p s ->
  reassemble s (buffer (encoded_payload p s x)) (buffsize p)
  = be_combine (be_bytes (Z.to_nat (data_size s)) x).
Proof.
  intros Hok (Hb0 & Hcap & _).
  pose proof (data_size_nonneg s Hok) as Hds.
  unfold reassemble, encoded_payload; cbn [buffer].
  rewrite drop_app_length' by (rewrite length_take_le; lia).
  rewrite take_app_length' by (rewrite length_be_bytes; reflexivity).
  reflexivity.
Qed.

Lemma to_signed_mod n x :
  0 <= n ->
  - 2 ^ n <= 2 * x < 2 ^ n ->
  to_signed n (x mod 2 ^ n) = x.
Proof.
  intros Hn Hx. unfold to_signed.
  assert (Hp : 0 < 2 ^ n) by (apply Z.pow_pos_nonneg; lia).
  destruct (Z.lt_ge_cases x 0) as [Hneg | Hpos].
  - assert (E : x mod 2 ^ n = x + 2 ^ n).
    { symmetry. apply (Z.mod_unique_pos x (2 ^ n) (-1)); lia. }
    rewrite E.
    destruct (Z.ltb_spec (2 * (x + 2 ^ n)) (2 ^ n)); lia.
  - rewrite Z.mod_small by lia.
    destruct (Z.ltb_spec (2 * x) (2 ^ n)); lia.
Qed.

(** An integer that fits the field is recovered by the decoder. *)
Lemma decoded_integer_fits s x :
  codec_ok s -> fits_field s x ->
  decoded_integer s (x mod 2 ^ (8 * data_size s)) = x.
Proof.
  intros Hok Hfit. pose proof (data_size_nonneg s Hok) as Hds.
  unfold decoded_integer, fits_field in *.
  destruct (is_signed s).
  - apply to_signed_mod; lia.
  - apply Z.mod_small. exact Hfit.
Qed.

End Decode.

(** ** Truncation and the round trip *)

Section Truncation.

(** The sample floats are binary32 numbers in canonical form. *)
Lemma sample_floats_valid :
  Forall (fun x => valid_binary Float32.prec Float32.emax x = true)
    [f3_85; minus_half; f12000021; Float32.of_int 100; Float32.of_int 10000].
Proof. repeat constructor. Qed.

Lemma cond_Zopp_mul s a b : cond_Zopp s (a * b) = cond_Zopp s a * b.
Proof. destruct s; cbn; lia. Qed.

Lemma Qabs_diff_same a : (Qabs (inject_Z a - inject_Z a) < 1)%Q.
Proof.
  unfold Qlt, Qabs, Qminus, Qplus, Qopp, inject_Z; cbn [Qnum Qden].
  lia.
Qed.

(** Truncation moves a float by less than one. *)
Lemma trunc_within_one x t :
  Float32.trunc x = Some t ->
  (Qabs (inject_Z t - Float32.to_Q x) < 1)%Q.
Proof.
  destruct x as [s | s | | s m e]; cbn [Float32.trunc]; intros H;
    try discriminate H; injection H as <-.
  - apply (Qabs_diff_same 0).
  - destruct e as [| k | k]; cbn [Float32.to_Q].
    + rewrite Z.shiftl_0_r, Z.mul_1_r. apply Qabs_diff_same.
    + rewrite Z.shiftl_mul_pow2, cond_Zopp_mul by lia. apply Qabs_diff_same.
    + change (Z.shiftl (Z.pos m) (Z.neg k))
        with (Z.shiftr (Z.pos m) (Z.pos k)).
      rewrite Z.shiftr_div_pow2 by lia.
      unfold Qlt, Qabs, Qminus, Qplus, Qopp, inject_Z; cbn [Qnum Qden].
      rewrite Pos.mul_1_l, Pos2Z.inj_pow.
      assert (HD : 0 < 2 ^ Z.pos k) by (apply Z.pow_pos_nonneg; lia).
      pose proof (Z.div_mod (Z.pos m) (2 ^ Z.pos k)) as Hdm.
      pose proof (Z.mod_pos_bound (Z.pos m) (2 ^ Z.pos k) HD) as Hr.
      destruct s; cbn [cond_Zopp]; lia.
Qed.

(** Truncation never increases the magnitude: it rounds toward zero. *)
Lemma trunc_toward_zero x t :
  Float32.trunc x = Some t ->
  (Qabs (inject_Z t) <= Qabs (Float32.to_Q x))%Q.
Proof.
  destruct x as [s | s | | s m e]; cbn [Float32.trunc]; intros H;
    try discriminate H; injection H as <-.
  - apply Qle_refl.
  - destruct e as [| k | k]; cbn [Float32.to_Q].
    + rewrite Z.shiftl_0_r, Z.mul_1_r. apply Qle_refl.
    + rewrite Z.shiftl_mul_pow2, cond_Zopp_mul by lia. apply Qle_refl.
    + change (Z.shiftl (Z.pos m) (Z.neg k))
        with (Z.shiftr (Z.pos m) (Z.pos k)).
      rewrite Z.shiftr_div_pow2 by lia.
      unfold Qle, Qabs, inject_Z; cbn [Qnum Qden].
      rewrite Pos2Z.inj_pow.
      assert (HD : 0 < 2 ^ Z.pos k) by (apply Z.pow_pos_nonneg; lia).
      pose proof (Z.div_mod (Z.pos m) (2 ^ Z.pos k)) as Hdm.
      pose proof (Z.mod_pos_bound (Z.pos m) (2 ^ Z.pos k) HD) as Hr.
      assert (Hq : 0 <= Z.pos m / 2 ^ Z.pos k)
        by (apply Z.div_pos; lia).
      destruct s; cbn [cond_Zopp]; lia.
Qed.

Lemma to_int_trunc x t : Float32.to_int x = Some t -> Float32.trunc x = Some t.
Proof.
  unfold Float32.to_int.
  destruct (Float32.trunc x) as [t' |]; [| discriminate].
  destruct (in_int t'); [trivial | discriminate].
Qed.

(** A signed codec's sentinel is a positive number of the field. *)
Lemma signed_sentinel_bound s :
  codec_ok s -> is_signed s = true ->
  0 <= sentinel_pattern s /\
  2 * sentinel_pattern s < 2 ^ (8 * data_size s).
Proof.
  intros Hok Hsig. pose proof (data_size_nonneg s Hok) as Hds.
  unfold sentinel_pattern, sentinel_byte. rewrite Hsig.
  assert (Hc : data_size s = 0 \/ data_size s = 1 \/ data_size s = 2 \/
               data_size s = 3 \/ data_size s = 4)
    by (destruct Hok as (_ & _ & H4); lia).
  destruct Hc as [E | [E | [E | [E | E]]]]; rewrite E; concrete.
Qed.

(** Within the signed range, comparing the wrapped integer with a
    non-negative pattern is comparing the integer itself. *)
Lemma signed_flag n x pat :
  0 <= n ->
  0 <= pat /\ 2 * pat < 2 ^ n ->
  - 2 ^ n <= 2 * x < 2 ^ n ->
  (x mod 2 ^ n =? pat) = (x =? pat).
Proof.
  intros Hn [Hp0 Hp1] Hx.
  assert (Hp : 0 < 2 ^ n) by (apply Z.pow_pos_nonneg; lia).
  destruct (Z.lt_ge_cases x 0) as [Hneg | Hpos].
  - assert (E : x mod 2 ^ n = x + 2 ^ n).
    { symmetry. apply (Z.mod_unique_pos x (2 ^ n) (-1)); lia. }
    rewrite E.
    destruct (Z.eqb_spec (x + 2 ^ n) pat); destruct (Z.eqb_spec x pat);
      try reflexivity; lia.
  - rewrite Z.mod_small by lia. reflexivity.
Qed.

End Truncation.

(** ** Integers scale without rounding *)

Section ExactScaling.

Lemma digits2_pos_bounds p :
  2 ^ (Z.pos (digits2_pos p) - 1) <= Z.pos p < 2 ^ Z.pos (digits2_pos p).
Proof.
  induction p as [p IH | p IH |]; cbn [digits2_pos];
    [| | cbn; lia];
    rewrite Pos2Z.inj_succ;
    replace (Z.succ (Z.pos (digits2_pos p)) - 1)
      with (Z.succ (Z.pos (digits2_pos p) - 1)) by lia;
    rewrite !Z.pow_succ_r by lia; lia.
Qed.

Lemma digits_unique z d d' :
  0 < d -> 0 < d' ->
  2 ^ (d - 1) <= z < 2 ^ d -> 2 ^ (d' - 1) <= z < 2 ^ d' -> d = d'.
Proof.
  intros Hd Hd' H H'.
  destruct (Z.lt_trichotomy d d') as [Hlt | [E | Hgt]]; [| exact E |].
  - pose proof (Z.pow_le_mono_r 2 d (d' - 1) ltac:(lia) ltac:(lia)). lia.
  - pose proof (Z.pow_le_mono_r 2 d' (d - 1) ltac:(lia) ltac:(lia)). lia.
Qed.

Lemma Zdigits2_of_bounds m d :
  0 < d -> 2 ^ (d - 1) <= m < 2 ^ d -> Zdigits2 m = d.
Proof.
  intros Hd Hm.
  assert (Hpos : 0 < m)
    by (pose proof (Z.pow_pos_nonneg 2 (d - 1) ltac:(lia) ltac:(lia)); lia).
  destruct m as [| p | p]; try lia.
  cbn [Zdigits2].
  apply (digits_unique (Z.pos p)); [lia | exact Hd | | exact Hm].
  apply digits2_pos_bounds.
Qed.

Lemma shr_1_even m :
  0 <= m ->
  shr_1 (Build_shr_record (2 * m) false false) = Build_shr_record m false false.
Proof. destruct m; [reflexivity | reflexivity | lia]. Qed.

(** Shifting out [n] zero bits is exact. *)
Lemma iter_shr_1_exact n :
  forall m, 0 <= m ->
    SpecFloat.iter_pos shr_1 n (Build_shr_record (m * 2 ^ Z.pos n) false false)
    = Build_shr_record m false false.
Proof.
  induction n as [n IH | n IH |]; intros m Hm; cbn [SpecFloat.iter_pos].
  - assert (Hp : 0 < 2 ^ Z.pos n) by (apply Z.pow_pos_nonneg; lia).
    replace (m * 2 ^ Z.pos n~1)
      with (2 * (m * 2 ^ Z.pos n * 2 ^ Z.pos n)).
    + rewrite shr_1_even by nia.
      rewrite IH by nia. apply IH. exact Hm.
    + replace (Z.pos n~1) with (Z.pos n + Z.pos n + 1) by lia.
      rewrite !Z.pow_add_r by lia. change (2 ^ 1) with 2. ring.
  - assert (Hp : 0 < 2 ^ Z.pos n) by (apply Z.pow_pos_nonneg; lia).
    replace (m * 2 ^ Z.pos n~0) with (m * 2 ^ Z.pos n * 2 ^ Z.pos n).
    + rewrite IH by nia. apply IH. exact Hm.
    + replace (Z.pos n~0) with (Z.pos n + Z.pos n) by lia.
      rewrite Z.pow_add_r by lia. ring.
  - change (2 ^ 1) with 2. rewrite Z.mul_comm. apply shr_1_even. exact Hm.
Qed.

Lemma shr_fexp_exact M E K m' :
  0 <= K -> M = m' * 2 ^ K -> 2 ^ 23 <= m' < 2 ^ 24 -> -149 <= E + K ->
  shr_fexp 24 128 M E loc_Exact = (Build_shr_record m' false false, E + K).
Proof.
  intros HK HM Hm HE.
  assert (Hp : 0 < 2 ^ K) by (apply Z.pow_pos_nonneg; lia).
  assert (HdM : Zdigits2 M = 24 + K).
  { apply Zdigits2_of_bounds; [lia |].
    replace (24 + K - 1) with (23 + K) by lia.
    rewrite !Z.pow_add_r by lia. subst M. nia. }
  assert (Hshift : fexp 24 128 (Zdigits2 M + E) - E = K)
    by (rewrite HdM; unfold fexp, emin; lia).
  unfold shr_fexp. rewrite Hshift. cbn [shr_record_of_loc].
  unfold shr. destruct K as [| k | k]; [| | lia].
  - rewrite Z.add_0_r. subst M. rewrite Z.mul_1_r. reflexivity.
  - subst M. rewrite iter_shr_1_exact by lia. reflexivity.
Qed.

(** A mantissa that is a 24-bit number followed by zero bits is rounded
    to that number, exactly. *)
Lemma round_exact s M E K m' :
  0 <= K -> M = m' * 2 ^ K -> 2 ^ 23 <= m' < 2 ^ 24 ->
  -149 <= E + K <= 104 ->
  binary_round_aux 24 128 s M E loc_Exact
  = S754_finite s (Z.to_pos m') (E + K).
Proof.
  intros HK HM Hm HE.
  unfold binary_round_aux.
  rewrite (shr_fexp_exact M E K m') by (assumption || lia).
  cbn [shr_m loc_of_shr_record round_nearest_even].
  rewrite (shr_fexp_exact m' (E + K) 0 m') by (lia || (cbn; lia)).
  cbn [shr_m]. rewrite Z.add_0_r.
  destruct m' as [| p | p]; [cbn in Hm; lia | | lia].
  assert (Hle : (E + K <=? 128 - 24) = true) by (apply Z.leb_le; lia).
  rewrite Hle. reflexivity.
Qed.

Lemma iter_xO_value a k : Z.pos (Pos.iter xO a k) = Z.pos a * 2 ^ Z.pos k.
Proof.
  induction k as [| k IH] using Pos.peano_ind.
  - cbn [Pos.iter]. rewrite Pos2Z.inj_xO. change (2 ^ 1) with 2. lia.
  - rewrite Pos.iter_succ, Pos2Z.inj_xO, IH, Pos2Z.inj_succ.
    rewrite Z.pow_succ_r by lia. ring.
Qed.

(** [(float)n] for a non-zero integer below [2 ^ 24] is exact. *)
Lemma of_int_holds n :
  n <> 0 -> Z.abs n < 2 ^ 24 -> holds_integer (Float32.of_int n) n.
Proof.
  intros Hn0 Hn.
  assert (H : forall s a, Z.pos a < 2 ^ 24 ->
            exists m e,
              binary_round 24 128 s a 0 = S754_finite s m e /\
              2 ^ 23 <= Z.pos m < 2 ^ 24 /\ -23 <= e <= 0 /\
              Z.pos m = Z.pos a * 2 ^ (- e)).
  { intros s a Ha.
    pose proof (digits2_pos_bounds a) as Hd.
    set (d := Z.pos (digits2_pos a)) in *.
    assert (Hd24 : d <= 24).
    { destruct (Z.le_gt_cases d 24) as [H | H]; [exact H | exfalso].
      pose proof (Z.pow_le_mono_r 2 24 (d - 1) ltac:(lia) ltac:(lia)). lia. }
    assert (Hd1 : 1 <= d) by (subst d; lia).
    assert (Hscaled : 2 ^ 23 <= Z.pos a * 2 ^ (24 - d) < 2 ^ 24).
    { assert (E23 : 2 ^ 23 = 2 ^ (d - 1) * 2 ^ (24 - d))
        by (rewrite <- Z.pow_add_r by lia; f_equal; lia).
      assert (E24 : 2 ^ 24 = 2 ^ d * 2 ^ (24 - d))
        by (rewrite <- Z.pow_add_r by lia; f_equal; lia).
      assert (0 < 2 ^ (24 - d)) by (apply Z.pow_pos_nonneg; lia).
      rewrite E23, E24. nia. }
    unfold binary_round. fold d.
    assert (Hf : fexp 24 128 (d + 0) = d - 24)
      by (unfold fexp, emin; lia).
    rewrite Hf. unfold shl_align.
    destruct (d - 24 - 0) as [| q | q] eqn:Hq; [| lia |].
    - assert (d = 24) as Ed by lia. rewrite Ed in Hscaled.
      change (2 ^ (24 - 24)) with 1 in Hscaled. rewrite Z.mul_1_r in Hscaled.
      rewrite (round_exact s (Z.pos a) 0 0 (Z.pos a)) by (cbn; lia).
      exists a, 0. cbn [Z.to_pos Z.add]. repeat split; try lia.
    - assert (Eq : 24 - d = Z.pos q) by lia. rewrite Eq in Hscaled.
      rewrite (round_exact s (Z.pos (Pos.iter xO a q)) (d - 24) 0
                 (Z.pos (Pos.iter xO a q)));
        [| lia | lia | rewrite iter_xO_value; exact Hscaled | lia].
      exists (Pos.iter xO a q), (d - 24). cbn [Z.to_pos].
      rewrite Z.add_0_r.
      repeat split; try lia; rewrite iter_xO_value; try apply Hscaled.
      f_equal. f_equal. lia. }
  unfold Float32.of_int, Float32.prec, Float32.emax, binary_normalize,
    holds_integer.
  destruct n as [| a | a]; [contradiction | |].
  - destruct (H false a ltac:(lia)) as (m & e & -> & Hm & He & Hv).
    repeat split; try assumption; lia.
  - destruct (H true a ltac:(lia)) as (m & e & -> & Hm & He & Hv).
    repeat split; try assumption; lia.
Qed.

(** The product of two integers held exactly is held exactly, as long as
    it stays below [2 ^ 24]. *)
Lemma mul_holds x y n k :
  holds_integer x n -> holds_integer y k -> Z.abs (n * k) < 2 ^ 24 ->
  holds_integer (Float32.mul x y) (n * k).
Proof.
  destruct x as [| | | sx mx ex]; try contradiction.
  destruct y as [| | | sy my ey]; try contradiction.
  intros (Hsx & Hmx & Hex & Hvx) (Hsy & Hmy & Hey & Hvy) Hc.
  rewrite Z.abs_mul in Hc.
  set (a := Z.abs n) in *. set (b := Z.abs k) in *.
  set (j := - ex - ey).
  assert (Hpx : 0 < 2 ^ (- ex)) by (apply Z.pow_pos_nonneg; lia).
  assert (Hpy : 0 < 2 ^ (- ey)) by (apply Z.pow_pos_nonneg; lia).
  assert (Ha : 0 < a) by nia. assert (Hb : 0 < b) by nia.
  assert (HM : Z.pos (mx * my) = a * b * 2 ^ j).
  { subst j. replace (- ex - ey) with (- ex + - ey) by lia.
    rewrite Z.pow_add_r, Pos2Z.inj_mul, Hvx, Hvy by lia. ring. }
  assert (HMb : 2 ^ 46 <= Z.pos (mx * my) < 2 ^ 48).
  { rewrite Pos2Z.inj_mul.
    change (2 ^ 46) with (2 ^ 23 * 2 ^ 23).
    change (2 ^ 48) with (2 ^ 24 * 2 ^ 24). nia. }
  assert (Hj : 0 <= j <= 46) by (subst j; lia).
  (* the number of bits to shift out *)
  set (K := if Z.pos (mx * my) <? 2 ^ 47 then 23 else 24).
  assert (HK : (K = 23 /\ Z.pos (mx * my) < 2 ^ 47) \/
               (K = 24 /\ 2 ^ 47 <= Z.pos (mx * my))).
  { subst K. destruct (Z.ltb_spec (Z.pos (mx * my)) (2 ^ 47)); [left | right];
      split; (reflexivity || assumption). }
  assert (HjK : K <= j).
  { destruct (Z.le_gt_cases K j) as [H | H]; [exact H | exfalso].
    assert (Hle : 2 ^ j <= 2 ^ (K - 1))
      by (apply Z.pow_le_mono_r; lia).
    destruct HK as [[-> HK] | [-> HK]]; cbn in Hle; nia. }
  set (m' := a * b * 2 ^ (j - K)).
  assert (Hsplit : 2 ^ j = 2 ^ (j - K) * 2 ^ K).
  { rewrite <- Z.pow_add_r by lia. f_equal. lia. }
  assert (HmK : Z.pos (mx * my) = m' * 2 ^ K)
    by (rewrite HM, Hsplit; subst m'; ring).
  assert (Hm' : 2 ^ 23 <= m' < 2 ^ 24).
  { destruct HK as [[EK HK] | [EK HK]]; rewrite EK in HmK;
      [change (2 ^ 23) with 8388608 in * | change (2 ^ 24) with 16777216 in *];
      change (2 ^ 46) with 70368744177664 in *;
      change (2 ^ 47) with 140737488355328 in *;
      change (2 ^ 48) with 281474976710656 in *; lia. }
  assert (Hp : 0 < 2 ^ (j - K)) by (apply Z.pow_pos_nonneg; lia).
  assert (HjK' : j - K <= 23).
  { destruct (Z.le_gt_cases (j - K) 23) as [H | H]; [exact H | exfalso].
    assert (Hle : 2 ^ 24 <= 2 ^ (j - K))
      by (apply Z.pow_le_mono_r; lia).
    subst m'. nia. }
  unfold Float32.mul, Float32.prec, Float32.emax. cbn [SFmul].
  rewrite (round_exact _ (Z.pos (mx * my)) (ex + ey) K m');
    [| destruct HK as [[-> _] | [-> _]]; lia | exact HmK | exact Hm'
     | subst j; lia].
  cbn [holds_integer].
  assert (Hpos : 0 < m') by lia.
  rewrite Z2Pos.id by exact Hpos.
  replace (- (ex + ey + K)) with (j - K) by (subst j; lia).
  split; [| split; [exact Hm' | split; [subst j; lia |]]].
  - rewrite Hsx, Hsy. subst a b.
    destruct (Z.ltb_spec n 0), (Z.ltb_spec k 0), (Z.ltb_spec (n * k) 0);
      cbn [xorb]; try reflexivity; exfalso; nia.
  - rewrite Z.abs_mul. reflexivity.
Qed.

(** Converting a float that holds an integer gives that integer. *)
Lemma to_int_holds x z : holds_integer x z -> Float32.to_int x = Some z.
Proof.
  destruct x as [| | | s m e]; try contradiction.
  intros (Hs & Hm & He & Hv).
  assert (Hp : 0 < 2 ^ (- e)) by (apply Z.pow_pos_nonneg; lia).
  unfold Float32.to_int, Float32.trunc.
  rewrite Z.shiftl_div_pow2 by lia.
  rewrite Hv, Z.div_mul by lia.
  assert (Hz : cond_Zopp s (Z.abs z) = z).
  { rewrite Hs. destruct (Z.ltb_spec z 0); cbn [cond_Zopp]; lia. }
  rewrite Hz.
  assert (Hin : in_int z = true).
  { unfold in_int, INT_MIN, INT_MAX.
    change (2 ^ 24) with 16777216 in Hm.
    change (2 ^ 31) with 2147483648.
    apply andb_true_iff. split; [apply Z.leb_le | apply Z.leb_le]; nia. }
  rewrite Hin. reflexivity.
Qed.

Lemma of_int_zero_or_finite k :
  Z.abs k < 2 ^ 24 -> is_zero_or_finite (Float32.of_int k) = true.
Proof.
  intros Hk. destruct (Z.eq_dec k 0) as [-> | Hk0]; [reflexivity |].
  pose proof (of_int_holds k Hk0 Hk) as H.
  destruct (Float32.of_int k); try contradiction; reflexivity.
Qed.

Lemma scaled_integer n k :
  Z.abs n < 2 ^ 24 -> Z.abs k < 2 ^ 24 -> Z.abs (n * k) < 2 ^ 24 ->
  Float32.to_int (Float32.mul (Float32.of_int n) (Float32.of_int k))
  = Some (n * k).
Proof.
  intros Hn Hk Hnk.
  destruct (Z.eq_dec n 0) as [-> | Hn0].
  - pose proof (of_int_zero_or_finite k Hk) as Hf.
    cbn [Z.mul]. change (Float32.of_int 0) with (S754_zero false).
    destruct (Float32.of_int k); try discriminate Hf; reflexivity.
  - destruct (Z.eq_dec k 0) as [-> | Hk0].
    + pose proof (of_int_holds n Hn0 Hn) as Hf.
      rewrite Z.mul_0_r. change (Float32.of_int 0) with (S754_zero false).
      destruct (Float32.of_int n); try contradiction; reflexivity.
    + apply to_int_holds, mul_holds; try assumption;
        apply of_int_holds; assumption.
Qed.

End ExactScaling.

(** ** The conversion of a reading to [float] *)

Section Cast.

Lemma shifted_out_start M : 0 <= M -> shifted_out M 0 (Build_shr_record M false false).
Proof.
  intros HM. exists 0. cbn [shr_m shr_r shr_s]. change (2 ^ 0) with 1.
  repeat split; try lia; reflexivity.
Qed.

Lemma shifted_out_shr_1 M k mrs :
  0 <= k -> shifted_out M k mrs -> shifted_out M (k + 1) (shr_1 mrs).
Proof.
  intros Hk (rest & HM & Hrest & Hm & Hr & Hs).
  assert (HP : 0 < 2 ^ k) by (apply Z.pow_pos_nonneg; lia).
  assert (HP1 : 2 ^ (k + 1) = 2 * 2 ^ k)
    by (rewrite Z.pow_add_r by lia; change (2 ^ 1) with 2; ring).
  unfold shifted_out. rewrite HP1. set (P := 2 ^ k) in *.
  destruct mrs as [m r s]. cbn [shr_m shr_r shr_s] in *.
  destruct m as [| [p | p |] | p]; cbn [shr_1 shr_m shr_r shr_s]; try lia.
  - exists rest. cbn [shr_m shr_r shr_s]. subst r s.
    repeat split; try lia;
      destruct (Z.leb_spec P (2 * rest)), (Z.eqb_spec rest 0),
        (Z.eqb_spec (2 * rest) P), (Z.leb_spec (2 * P) (2 * rest)),
        (Z.eqb_spec (2 * rest) (2 * P)); cbn; try reflexivity; lia.
  - exists (P + rest). subst r s.
    repeat split; try lia;
      destruct (Z.leb_spec P (2 * rest)), (Z.eqb_spec rest 0),
        (Z.eqb_spec (2 * rest) P), (Z.leb_spec (2 * P) (2 * (P + rest))),
        (Z.eqb_spec (P + rest) 0),
        (Z.eqb_spec (2 * (P + rest)) (2 * P)); cbn; try reflexivity; lia.
  - exists rest. subst r s.
    repeat split; try lia;
      destruct (Z.leb_spec P (2 * rest)), (Z.eqb_spec rest 0),
        (Z.eqb_spec (2 * rest) P), (Z.leb_spec (2 * P) (2 * rest)),
        (Z.eqb_spec (2 * rest) (2 * P)); cbn; try reflexivity; lia.
  - exists (P + rest). subst r s.
    repeat split; try lia;
      destruct (Z.leb_spec P (2 * rest)), (Z.eqb_spec rest 0),
        (Z.eqb_spec (2 * rest) P), (Z.leb_spec (2 * P) (2 * (P + rest))),
        (Z.eqb_spec (P + rest) 0),
        (Z.eqb_spec (2 * (P + rest)) (2 * P)); cbn; try reflexivity; lia.
Qed.

Lemma shifted_out_iter M n :
  forall k mrs, 0 <= k -> shifted_out M k mrs ->
    shifted_out M (k + Z.pos n) (SpecFloat.iter_pos shr_1 n mrs).
Proof.
  induction n as [n IH | n IH |]; intros k mrs Hk H; cbn [SpecFloat.iter_pos].
  - replace (k + Z.pos n~1) with (k + 1 + Z.pos n + Z.pos n) by lia.
    apply IH; [lia |]. apply IH; [lia |]. apply shifted_out_shr_1; assumption.
  - replace (k + Z.pos n~0) with (k + Z.pos n + Z.pos n) by lia.
    apply IH; [lia |]. apply IH; assumption.
  - apply shifted_out_shr_1; assumption.
Qed.

(** Rounding to nearest after the shift: a 24-bit number (or [2 ^ 24])
    whose distance from [M], in units of [2 ^ k], is at most a half. *)
Lemma round_shifted_out M k mrs q :
  shifted_out M k mrs ->
  q = round_nearest_even (shr_m mrs) (loc_of_shr_record mrs) ->
  shr_m mrs <= q <= shr_m mrs + 1 /\ 2 * Z.abs (q * 2 ^ k - M) <= 2 ^ k.
Proof.
  intros (rest & HM & Hrest & Hm & Hr & Hs).
  destruct mrs as [m r s]. cbn [shr_m shr_r shr_s] in *.
  set (P := 2 ^ k) in *.
  destruct (Z.leb_spec P (2 * rest)), (Z.eqb_spec rest 0),
    (Z.eqb_spec (2 * rest) P); cbn in Hs; subst r s;
    cbn [loc_of_shr_record round_nearest_even]; intros ->; try lia;
    try destruct (IntDef.Z.even m); lia.
Qed.

(** Rounding an integer of more than 24 bits: the float, when finite, is
    an integer within [2 ^ -24] of it, relatively. *)
Lemma binary_round_large s a :
  2 ^ 24 <= Z.pos a ->
  match binary_round 24 128 s a 0 with
  | S754_finite s' m e =>
      s' = s /\ 0 < e /\ Z.abs (Z.pos m * 2 ^ e - Z.pos a) * 2 ^ 24 <= Z.pos a
  | S754_infinity _ => True
  | _ => False
  end.
Proof.
  intros Ha.
  pose proof (digits2_pos_bounds a) as Hd.
  set (d := Z.pos (digits2_pos a)) in *.
  assert (Hd24 : 24 < d).
  { destruct (Z.lt_ge_cases 24 d) as [H | H]; [exact H | exfalso].
    pose proof (Z.pow_le_mono_r 2 d 24 ltac:(lia) H). lia. }
  unfold binary_round. fold d.
  assert (Hf : fexp 24 128 (d + 0) = d - 24) by (unfold fexp, emin; lia).
  rewrite Hf. unfold shl_align.
  destruct (d - 24 - 0) as [| kp | kp] eqn:Hk; [lia | | lia].
  unfold binary_round_aux, shr_fexp at 1.
  cbn [Zdigits2 shr_record_of_loc]. fold d. rewrite Hf, Hk. cbn [shr].
  pose proof (shifted_out_iter (Z.pos a) kp 0 _ ltac:(lia)
                (shifted_out_start (Z.pos a) ltac:(lia))) as Hsh.
  set (mrs := SpecFloat.iter_pos shr_1 kp _) in *.
  rewrite !Z.add_0_l in *.
  set (k := Z.pos kp) in *.
  assert (HP : 0 < 2 ^ k) by (apply Z.pow_pos_nonneg; lia).
  assert (E23 : 2 ^ (d - 1) = 2 ^ 23 * 2 ^ k)
    by (rewrite <- Z.pow_add_r by lia; f_equal; lia).
  assert (E24 : 2 ^ d = 2 ^ 24 * 2 ^ k)
    by (rewrite <- Z.pow_add_r by lia; f_equal; lia).
  rewrite E23, E24 in Hd.
  change (2 ^ 23) with 8388608 in *. change (2 ^ 24) with 16777216 in *.
  assert (Hm : 8388608 <= shr_m mrs < 16777216).
  { destruct Hsh as (rest & HM & Hrest & _). nia. }
  destruct (round_shifted_out (Z.pos a) k mrs _ Hsh eq_refl) as [Hq Herr].
  set (q := round_nearest_even _ _) in *.
  destruct (Z.eq_dec q 16777216) as [Eq | Nq].
  - rewrite (shr_fexp_exact q k 1 8388608);
      [| lia | rewrite Eq; reflexivity | cbn; lia | lia].
    cbn [shr_m].
    destruct (k + 1 <=? 128 - 24); [| exact I].
    split; [reflexivity | split; [lia |]].
    rewrite Z.pow_add_r by lia. change (2 ^ 1) with 2.
    rewrite Eq in Herr. nia.
  - rewrite (shr_fexp_exact q k 0 q);
      [| lia | change (2 ^ 0) with 1; lia | cbn; lia | lia].
    cbn [shr_m]. rewrite Z.add_0_r.
    destruct q as [| qp | qp]; [lia | | lia].
    destruct (k <=? 128 - 24); [| exact I].
    split; [reflexivity | split; [lia |]]. nia.
Qed.

Lemma of_int_large n :
  2 ^ 24 <= Z.abs n ->
  match Float32.of_int n with
  | S754_finite s m e =>
      0 < e /\
      Z.abs (cond_Zopp s (Z.pos m) * 2 ^ e - n) * 2 ^ 24 <= Z.abs n
  | S754_infinity _ => True
  | _ => False
  end.
Proof.
  intros Hn.
  unfold Float32.of_int, Float32.prec, Float32.emax, binary_normalize.
  destruct n as [| a | a]; [cbn in Hn; lia | |].
  - pose proof (binary_round_large false a ltac:(lia)) as H.
    destruct (binary_round 24 128 false a 0) as [| | | s m e]; try exact H.
    destruct H as (-> & He & H). split; [exact He |]. cbn [cond_Zopp]. lia.
  - pose proof (binary_round_large true a ltac:(lia)) as H.
    destruct (binary_round 24 128 true a 0) as [| | | s m e]; try exact H.
    destruct H as (-> & He & H). split; [exact He |]. cbn [cond_Zopp]. lia.
Qed.

(** [(float)n] is [n] itself below [2 ^ 24]. *)
Lemma of_int_exact n :
  Z.abs n < 2 ^ 24 -> (Float32.to_Q (Float32.of_int n) == inject_Z n)%Q.
Proof.
  intros Hn. destruct (Z.eq_dec n 0) as [-> | Hn0]; [reflexivity |].
  pose proof (of_int_holds n Hn0 Hn) as H.
  destruct (Float32.of_int n) as [| | | s m e]; try contradiction.
  destruct H as (Hs & Hm & He & Hv).
  assert (Hz : cond_Zopp s (Z.abs n) = n).
  { rewrite Hs. destruct (Z.ltb_spec n 0); cbn [cond_Zopp]; lia. }
  destruct e as [| k | k]; cbn [Float32.to_Q]; [| lia |].
  - change (2 ^ (- 0)) with 1 in Hv. rewrite Hv, !Z.mul_1_r, Hz. reflexivity.
  - unfold Qeq, inject_Z; cbn [Qnum Qden].
    rewrite Pos2Z.inj_pow, Hv, cond_Zopp_mul, Hz, Z.mul_1_r. reflexivity.
Qed.

Lemma Qabs_diff_bound F n c :
  Z.abs (F - n) * c <= Z.abs n ->
  (Qabs (inject_Z F - inject_Z n) * inject_Z c <= Qabs (inject_Z n))%Q.
Proof.
  intros H.
  unfold Qle, Qabs, Qminus, Qplus, Qopp, Qmult, inject_Z; cbn [Qnum Qden].
  lia.
Qed.

Lemma Qabs_same_bound q c :
  (Qabs (q - q) * c <= Qabs q)%Q.
Proof.
  assert (E : (q - q == 0)%Q) by ring.
  rewrite E. change (Qabs 0) with 0%Q. rewrite Qmult_0_l. apply Qabs_nonneg.
Qed.

(** A product that converts to an [int] has a finite first operand. *)
Lemma mul_defined_operand x y z :
  Float32.to_int (Float32.mul x y) = Some z -> is_zero_or_finite x = true.
Proof.
  destruct x as [sx | sx | | sx mx ex]; try reflexivity;
    destruct y as [sy | sy | | sy my ey]; discriminate.
Qed.

(** The conversion [(float)sensor_data] of line 22, when finite, is the
    number the reading holds to within [2 ^ -24] of its magnitude. *)
Lemma cast_accurate v :
  is_zero_or_finite (to_float v) = true ->
  (Qabs (Float32.to_Q (to_float v) - reading_value v) * inject_Z (2 ^ 24)
   <= Qabs (reading_value v))%Q.
Proof.
  assert (H : forall n, is_zero_or_finite (Float32.of_int n) = true ->
            (Qabs (Float32.to_Q (Float32.of_int n) - inject_Z n)
             * inject_Z (2 ^ 24) <= Qabs (inject_Z n))%Q).
  { intros n Hfin.
    destruct (Z.lt_ge_cases (Z.abs n) (2 ^ 24)) as [Hs | Hl].
    - rewrite (of_int_exact n Hs). apply Qabs_same_bound.
    - pose proof (of_int_large n Hl) as H.
      destruct (Float32.of_int n) as [| | | s m e];
        try contradiction; try discriminate Hfin.
      destruct H as (He & H).
      destruct e as [| k | k]; try lia. cbn [Float32.to_Q].
      apply Qabs_diff_bound. exact H. }
  destruct v as [n | n | n | n | x]; cbn [to_float reading_value];
    try apply H. intros _. apply Qabs_same_bound.
Qed.

(** Below [2 ^ 24] in magnitude the conversion is exact. *)
Lemma cast_exact v :
  (Qabs (reading_value v) < inject_Z (2 ^ 24))%Q ->
  (Float32.to_Q (to_float v) == reading_value v)%Q.
Proof.
  destruct v as [n | n | n | n | x]; cbn [to_float reading_value];
    try reflexivity; intros H; apply of_int_exact;
    unfold Qlt, Qabs, inject_Z in H; cbn [Qnum Qden] in H; lia.
Qed.

End Cast.

(** * The claims of the specification *)

(** C1, as stated, fails: a call for a codec that packs two values into
    eight bytes appends four bytes, not [n_bytes = 8]. *)
Lemma encode_appends_byte_width_counterexample :
  ~ appends_exactly (n_bytes location_like)
      (of_float f3_85) true (empty_payload 8) location_like.
Proof.
  intros (bytes & (p' & trace & Henc & _ & Hsize) & Hlen).
  vm_compute in Henc. injection Henc as <- _.
  cbn in Hsize, Hlen. lia.
Qed.

(** C1 (amended): within the encoder's preconditions, one call to
    [encodeDataWithSchema] appends exactly [n_bytes / n_values] bytes to
    the frame and increases [buffsize] by exactly that amount, for every
    value and both validity flags; this is [n_bytes] when [n_values = 1]. *)
Theorem encode_appends_data_size v valid p s x :
  codec_ok s -> room p s ->
  scaled_data v valid s = Some x ->
  appends_exactly (data_size s) v valid p s /\
  (n_values s = 1 -> appends_exactly (n_bytes s) v valid p s).
Proof.
  intros Hok Hroom Hx.
  assert (H : appends_exactly (data_size s) v valid p s).
  { exists (be_bytes (Z.to_nat (data_size s)) x).
    split; [apply encode_appends; assumption |].
    rewrite length_be_bytes.
    pose proof (data_size_nonneg s Hok). lia. }
  split; [exact H |].
  intros H1. unfold data_size in H. rewrite H1, Z.quot_1_r in H. exact H.
Qed.

Lemma encode_appends_data_size_witness :
  appends_exactly 4 (of_float f3_85) true (empty_payload 8) location_like /\
  appends_exactly 2 (of_float f3_85) false started_payload batteryVoltage_like.
Proof.
  split.
  - apply (encode_appends_data_size (of_float f3_85) true (empty_payload 8)
             location_like 38500).
    + concrete.
    + concrete.
    + reflexivity.
  - apply (encode_appends_data_size (of_float f3_85) false started_payload
             batteryVoltage_like (-1)).
    + concrete.
    + concrete.
    + reflexivity.
    + reflexivity.
Defined.

(** C2: with [valid = false] the call appends the sentinel, whatever the
    value: [n_bytes / n_values] bytes, each 0x7F for a signed codec and
    0xFF for an unsigned one; a 2-byte unsigned field gets 0xFF 0xFF. *)
Theorem encode_invalid_appends_sentinel v p s :
  codec_ok s -> room p s ->
  appends v false p s
    (replicate (Z.to_nat (data_size s)) (if is_signed s then 0x7F else 0xFF)) /\
  (is_signed s = false -> data_size s = 2 -> appends v false p s [0xFF; 0xFF]).
Proof.
  intros Hok Hroom.
  pose proof (scaled_data_invalid s v) as Hx.
  pose proof (data_size_nonneg s Hok) as Hds.
  assert (Hn : (Z.to_nat (data_size s) <= 4)%nat)
    by (destruct Hok as (_ & _ & H4); lia).
  pose proof (encode_appends v false p s _ Hok Hroom Hx) as Happ.
  rewrite (be_bytes_sentinel s v _ _ Hn Hx) in Happ.
  split; [exact Happ |].
  intros Hu H2. unfold sentinel_byte in Happ.
  rewrite Hu, H2 in Happ. exact Happ.
Qed.

Lemma encode_invalid_appends_sentinel_witness :
  appends (of_float f3_85) false started_payload batteryVoltage_like [0xFF; 0xFF] /\
  appends (of_int 12) false started_payload temperature_like [0x7F; 0x7F].
Proof.
  split.
  - apply (encode_invalid_appends_sentinel (of_float f3_85) started_payload
             batteryVoltage_like); concrete.
  - apply (encode_invalid_appends_sentinel (of_int 12) started_payload
             temperature_like); concrete.
Defined.

(** C3: with [valid = true] the call appends the big-endian bytes (most
    significant first), over [n_bytes / n_values] bytes, of the integer [x]
    obtained by truncating the product [value * scale_factor] toward
    zero: [x] is no larger in magnitude than the product and less than 1
    away from it.  The value enters the product as a [float]: a [float]
    reading as it is, an integer reading of any of the four integer types
    converted, which changes it by at most [2 ^ -24] of its magnitude and
    not at all below [2 ^ 24].  A 2-byte unsigned scale-100 codec encodes
    3.85 as 0x01 0x81, and a signed one the [int] -12 as 0xFB 0x50. *)
Theorem encode_valid_appends_big_endian v p s x :
  codec_ok s -> room p s ->
  Float32.to_int (Float32.mul (to_float v) (scale_factor s)) = Some x ->
  appends v true p s (be_bytes (Z.to_nat (data_size s)) x) /\
  (forall i : nat,
      (i < Z.to_nat (data_size s))%nat ->
      be_bytes (Z.to_nat (data_size s)) x !! i
      = Some (Z.shiftr x (8 * (data_size s - 1 - Z.of_nat i)) mod 256)) /\
  (Qabs (inject_Z x)
   <= Qabs (Float32.to_Q (Float32.mul (to_float v) (scale_factor s))))%Q /\
  (Qabs (inject_Z x
         - Float32.to_Q (Float32.mul (to_float v) (scale_factor s))) < 1)%Q /\
  (Qabs (Float32.to_Q (to_float v) - reading_value v) * inject_Z (2 ^ 24)
   <= Qabs (reading_value v))%Q /\
  ((Qabs (reading_value v) < inject_Z (2 ^ 24))%Q ->
   (Float32.to_Q (to_float v) == reading_value v)%Q).
Proof.
  intros Hok Hroom Hx.
  split; [apply encode_appends; assumption |].
  pose proof (data_size_nonneg s Hok) as Hds.
  split; [| split; [| split; [| split]]].
  - intros i Hi. rewrite be_bytes_lookup by exact Hi.
    do 3 f_equal. lia.
  - apply trunc_toward_zero, to_int_trunc. exact Hx.
  - apply trunc_within_one, to_int_trunc. exact Hx.
  - apply cast_accurate. exact (mul_defined_operand _ _ _ Hx).
  - apply cast_exact.
Qed.

Lemma encode_valid_appends_big_endian_witness :
  appends (of_float f3_85) true (empty_payload 4) batteryVoltage_like
    [0x01; 0x81] /\
  appends (of_int (-12)) true started_payload temperature_like [0xFB; 0x50] /\
  (Float32.to_Q (to_float (of_int (-12))) == reading_value (of_int (-12)))%Q.
Proof.
  split.
  - apply (encode_valid_appends_big_endian (of_float f3_85) (empty_payload 4)
             batteryVoltage_like 385); [concrete | concrete | reflexivity].
  - destruct (encode_valid_appends_big_endian (of_int (-12)) started_payload
                temperature_like (-1200))
      as (Happ & _ & _ & _ & _ & Hexact);
      [concrete | concrete | reflexivity |].
    split; [exact Happ | apply Hexact; reflexivity].
Defined.

(** C4: looking up 255, or any number without a registered schema,
    returns the error schema: port number 255, no field included, encoded
    length 0 (for any codec table); the lookup is total. *)
Theorem getPort_unregistered n :
  n = 255 \/ ~ registered n ->
  getPort n = PORTERROR /\
  port_number (getPort n) = 255 /\
  (forall kind, includes (getPort n) kind = false) /\
  (forall codec, encoded_length codec (getPort n) = 0).
Proof.
  intros Hn.
  assert (Hun : ~ registered n).
  { destruct Hn as [-> | Hn]; [apply error_port_unregistered | exact Hn]. }
  assert (E : getPort n = PORTERROR).
  { unfold getPort. rewrite find_unregistered by exact Hun. reflexivity. }
  rewrite E.
  split; [reflexivity |]. split; [reflexivity |]. split.
  - intros kind. destruct kind; reflexivity.
  - intros codec. apply encoded_length_PORTERROR.
Qed.

Lemma getPort_unregistered_witness :
  getPort 255 = PORTERROR /\ getPort 12 = PORTERROR /\ getPort 0 = PORTERROR.
Proof.
  split; [| split].
  - apply (getPort_unregistered 255). left. reflexivity.
  - apply (getPort_unregistered 12). right.
    unfold registered. cbn. intros H.
    repeat (destruct H as [H | H]; [discriminate H |]). exact H.
  - apply (getPort_unregistered 0). right.
    unfold registered. cbn. intros H.
    repeat (destruct H as [H | H]; [discriminate H |]). exact H.
Defined.

(** C5: the schema [operator+] produces includes a field kind exactly when
    one of the operands does, and its port number is 0. *)
Theorem operator_plus_combines (A B : portSchema) (kind : SensorFieldKind) :
  includes (operator_plus A B) kind = includes A kind || includes B kind /\
  port_number (operator_plus A B) = 0.
Proof. split; [destruct kind |]; reflexivity. Qed.

(** C6: for every port schema and every snapshot, [encodeSensorDataToPayload]
    advances the write offset by exactly the encoded length of the schema,
    the sum of [n_bytes] over its included fields, whatever the values and
    validity flags of the snapshot. *)
Theorem encodeSensorDataToPayload_length codec this sensor_data
    payload_buffer start_pos :
  table_ok codec ->
  0 <= start_pos ->
  start_pos + encoded_length codec this <= Z.of_nat (length payload_buffer) ->
  start_pos + encoded_length codec this <= 255 ->
  snapshot_encodable codec this sensor_data ->
  exists buf trace,
    encodeSensorDataToPayload codec this sensor_data payload_buffer start_pos
    = Some ((start_pos + encoded_length codec this, buf), trace) /\
    length buf = length payload_buffer.
Proof.
  intros Hok Hs Hcap H255 Henc.
  pose proof (total_width_nonneg codec Hok (included_kinds this)) as Hw.
  unfold encodeSensorDataToPayload.
  rewrite (wrap_u8_small start_pos)
    by (unfold encoded_length, total_width in *; lia).
  set (payload := {| buffer := payload_buffer; buffsize := start_pos;
                     port := port_number this; rssi := 0; snr := 0 |}).
  destruct (encode_fields_spec codec Hok sensor_data (included_kinds this) payload)
    as (p' & t & Heq & Hb & Hl); try exact Hs; try exact Hcap; try exact H255.
  { intros kind Hin. apply Henc.
    unfold included_kinds in Hin. apply filter_In in Hin. apply Hin. }
  unfold bind. rewrite Heq. cbn [ret].
  exists (buffer p'), (t ++ []).
  split; [rewrite Hb; reflexivity | exact Hl].
Qed.

Lemma encodeSensorDataToPayload_length_witness :
  exists buf trace,
    encodeSensorDataToPayload sample_codecs PORT51 sample_snapshot
      (replicate 16 0) 3
    = Some ((13, buf), trace) /\
    length buf = 16%nat.
Proof.
  apply (encodeSensorDataToPayload_length sample_codecs PORT51 sample_snapshot
           (replicate 16 0) 3).
  - intros kind. destruct kind; concrete.
  - concrete.
  - concrete.
  - concrete.
  - intros kind Hinc. destruct kind; try discriminate Hinc;
      repeat constructor; vm_compute; congruence.
Defined.

(** C7: when the codec is unsigned and the scaled integer is negative,
    the call logs the warning and still completes; the bytes appended are
    the two's-complement big-endian truncation of the integer, the same
    payload the codec marked signed (no warning) produces. *)
Theorem unsigned_negative_warns_and_wraps v valid p s x :
  codec_ok s -> room p s ->
  is_signed s = false ->
  scaled_data v valid s = Some x -> x < 0 ->
  encodeDataWithSchema v valid p s
  = Some (encoded_payload p s x, [(WARN, unsigned_warning)]) /\
  frame (encoded_payload p s x)
  = frame p ++ be_bytes (Z.to_nat (data_size s)) x /\
  (valid = true ->
   encodeDataWithSchema v valid p (as_signed s)
   = Some (encoded_payload p s x, [])).
Proof.
  intros Hok Hroom Hu Hx Hneg.
  split; [| split].
  - rewrite (encode_spec v valid p s x Hok Hroom Hx).
    unfold warning_trace. rewrite Hu.
    apply Z.ltb_lt in Hneg. rewrite Hneg. reflexivity.
  - apply frame_encoded; assumption.
  - intros ->.
    assert (Hx' : scaled_data v true (as_signed s) = Some x) by exact Hx.
    rewrite (encode_spec v true p (as_signed s) x Hok Hroom Hx').
    reflexivity.
Qed.

Lemma unsigned_negative_warns_and_wraps_witness :
  encodeDataWithSchema (of_float minus_half) true (empty_payload 4)
    batteryVoltage_like
  = Some ({| buffer := [0xFF; 0xCE; 0; 0]; buffsize := 2;
             port := 1; rssi := 0; snr := 0 |}, [(WARN, unsigned_warning)]).
Proof.
  apply (unsigned_negative_warns_and_wraps (of_float minus_half) true
           (empty_payload 4) batteryVoltage_like (-50));
    [concrete | concrete | reflexivity | reflexivity | reflexivity].
Defined.

(** C8: decoding the bytes the encoder writes with [valid = false] flags
    the reading invalid, for every codec and every value. *)
Theorem decode_sentinel_invalid v p s :
  codec_ok s -> room p s ->
  exists p' trace,
    encodeDataWithSchema v false p s = Some (p', trace) /\
    snd (decodeData s (buffer p') (buffsize p)) = false.
Proof.
  intros Hok Hroom.
  pose proof (scaled_data_invalid s v) as Hx.
  pose proof (data_size_nonneg s Hok) as Hds.
  assert (Hn : (Z.to_nat (data_size s) <= 4)%nat)
    by (destruct Hok as (_ & _ & H4); lia).
  eexists _, _. split; [apply (encode_spec v false p s _ Hok Hroom Hx) |].
  unfold decodeData; cbn [snd].
  rewrite reassemble_encoded by assumption.
  rewrite (be_bytes_sentinel s v _ _ Hn Hx).
  unfold sentinel_pattern. rewrite Z.eqb_refl. reflexivity.
Qed.

Lemma decode_sentinel_invalid_witness :
  exists p' trace,
    encodeDataWithSchema (of_float f3_85) false started_payload temperature_like
    = Some (p', trace) /\
    snd (decodeData temperature_like (buffer p') 2) = false.
Proof.
  apply (decode_sentinel_invalid (of_float f3_85) started_payload
           temperature_like); concrete.
Defined.

(** C9, as stated, fails: a 4-byte scale-100 codec encodes 12000021 as
    1200002048 (the single-precision product is rounded to a multiple of
    128), which decodes to 12000020, further than 1/100 from the value. *)
Lemma roundtrip_tolerance_counterexample :
  codec_ok pressure_like /\
  room (empty_payload 4) pressure_like /\
  scaled_data (of_float f12000021) true pressure_like = Some 1200002048 /\
  fits_field pressure_like 1200002048 /\
  roundtrip (of_float f12000021) (empty_payload 4) pressure_like
  = Some (S754_finite false 12000020 0, true) /\
  ~ roundtrip_within_tolerance (of_float f12000021) (empty_payload 4)
      pressure_like.
Proof.
  split; [concrete |]. split; [concrete |]. split; [reflexivity |].
  split; [concrete |]. split; [reflexivity |].
  intros (d & b & H & Htol).
  vm_compute in H. injection H as <- <-.
  vm_compute in Htol. apply Htol. reflexivity.
Qed.

(** C9 (amended): for a value encodable with [valid = true] whose scaled
    integer fits the field, decoding the encoded bytes recovers exactly
    that integer, which lies within 1 of the single-precision product
    [value * scale_factor], and returns its single-precision quotient by
    [scale_factor]. *)
Theorem roundtrip_recovers_scaled_integer v p s x :
  codec_ok s -> room p s ->
  scaled_data v true s = Some x ->
  fits_field s x ->
  roundtrip v p s
  = Some (Float32.div (Float32.of_int x) (scale_factor s),
          negb (x =? sentinel_pattern s)) /\
  (Qabs (inject_Z x
         - Float32.to_Q (Float32.mul (to_float v) (scale_factor s))) < 1)%Q.
Proof.
  intros Hok Hroom Hx Hfit.
  pose proof (data_size_nonneg s Hok) as Hds.
  split.
  - unfold roundtrip.
    rewrite (encode_spec v true p s x Hok Hroom Hx).
    unfold decodeData.
    rewrite reassemble_encoded, be_combine_be_bytes by assumption.
    rewrite Z2Nat.id by exact Hds.
    rewrite decoded_integer_fits by assumption.
    do 3 f_equal.
    destruct (is_signed s) eqn:Hsig.
  
    + unfold fits_field in Hfit. rewrite Hsig in Hfit.
      apply signed_flag; [lia | | exact Hfit].
      apply signed_sentinel_bound; assumption.
    + unfold fits_field in Hfit. rewrite Hsig in Hfit.
      rewrite Z.mod_small by exact Hfit. reflexivity.
  - apply trunc_within_one, to_int_trunc. exact Hx.
Qed.

Lemma roundtrip_recovers_scaled_integer_witness :
  roundtrip (of_float f3_85) started_payload batteryVoltage_like
  = Some (f3_85, true) /\
  roundtrip (of_float minus_half) started_payload temperature_like
  = Some (Float32.div (Float32.of_int (-50)) (Float32.of_int 100), true).
Proof.
  split.
  - apply (roundtrip_recovers_scaled_integer (of_float f3_85) started_payload
             batteryVoltage_like 385); [concrete | concrete | reflexivity | concrete].
  - apply (roundtrip_recovers_scaled_integer (of_float minus_half)
             started_payload temperature_like (-50));
      [concrete | concrete | reflexivity | concrete].
Defined.

(** C10: a call writes only buffer positions [buffsize] to
    [buffsize + n_bytes / n_values - 1] and the [buffsize] field: every
    byte before and after that range, the capacity and the fields [port],
    [rssi] and [snr] are unchanged. *)
Theorem encode_frame_effect v valid p s x :
  codec_ok s -> room p s ->
  scaled_data v valid s = Some x ->
  exists p' trace,
    encodeDataWithSchema v valid p s = Some (p', trace) /\
    length (buffer p') = length (buffer p) /\
    (forall k : nat,
        (k < Z.to_nat (buffsize p))%nat \/
        (Z.to_nat (buffsize p + data_size s) <= k)%nat ->
        buffer p' !! k = buffer p !! k) /\
    buffsize p' = buffsize p + data_size s /\
    port p' = port p /\ rssi p' = rssi p /\ snr p' = snr p.
Proof.
  intros Hok Hroom Hx.
  exists (encoded_payload p s x), (warning_trace s x).
  split; [apply encode_spec; assumption |].
  split; [apply length_encoded; assumption |].
  split; [intros k Hk; apply lookup_encoded_outside; assumption |].
  cbn [encoded_payload buffsize port rssi snr]. auto.
Qed.

Lemma encode_frame_effect_witness :
  exists p' trace,
    encodeDataWithSchema (of_float f3_85) true started_payload batteryVoltage_like
    = Some (p', trace) /\
    length (buffer p') = 8%nat /\
    (forall k : nat,
        (k < 2)%nat \/ (4 <= k)%nat ->
        buffer p' !! k = buffer started_payload !! k) /\
    buffsize p' = 4 /\ port p' = 7 /\ rssi p' = -60 /\ snr p' = 9.
Proof.
  apply (encode_frame_effect (of_float f3_85) true started_payload
           batteryVoltage_like 385); [concrete | concrete | reflexivity].
Defined.

(** * Further properties of the code *)

(** ** When a call of the encoder is defined *)

Section Definedness.

Lemma encode_loop_no_iteration fuel x ds bp j buf :
  ds <= 0 -> encode_loop fuel x ds bp 0 j buf = Some (0, buf).
Proof.
  intros Hds.
  assert (H : (0 <? ds) = false) by (apply Z.ltb_ge; exact Hds).
  destruct fuel; cbn [encode_loop]; rewrite H; reflexivity.
Qed.

(** A [uint8_t] counter never reaches a [data_size] of 256 or more: the
    loop has no defined end. *)
Lemma encode_loop_unbounded x ds bp :
  256 <= ds ->
  forall fuel i j buf, 0 <= i < 256 -> encode_loop fuel x ds bp i j buf = None.
Proof.
  intros Hds. induction fuel as [| fuel IH]; intros i j buf Hi;
    cbn [encode_loop];
    assert (H : (i <? ds) = true) by (apply Z.ltb_lt; lia); rewrite H;
    [reflexivity |].
  destruct (encoded_byte x j); [| reflexivity].
  destruct (store buf (bp + i) z); [| reflexivity].
  apply IH. apply Z.mod_pos_bound. lia.
Qed.

Lemma encoded_byte_wide x j : 4 <= j <= 31 -> encoded_byte x j = None.
Proof.
  intros Hj. unfold encoded_byte, shl_int.
  rewrite wrap_u8_small by lia.
  assert (H0 : (0 <? j) = true) by (apply Z.ltb_lt; lia).
  assert (H1 : (j * 8 <? 32) = false) by (apply Z.ltb_ge; lia).
  rewrite H0, H1, andb_false_r. reflexivity.
Qed.

(** From five bytes on, an iteration with a shift of 32 bits or more comes
    before the loop ends. *)
Lemma encode_loop_wide x ds bp :
  ds <= 256 ->
  forall fuel i j buf,
    0 <= i -> 4 <= j -> i + j = ds - 1 ->
    encode_loop fuel x ds bp i j buf = None.
Proof.
  intros Hds. induction fuel as [| fuel IH]; intros i j buf Hi Hj Hij;
    cbn [encode_loop];
    assert (H : (i <? ds) = true) by (apply Z.ltb_lt; lia); rewrite H;
    [reflexivity |].
  destruct (Z.le_gt_cases j 31) as [Hlow | Hhigh].
  - rewrite encoded_byte_wide by lia. reflexivity.
  - destruct (encoded_byte x j); [| reflexivity].
    destruct (store buf (bp + i) z); [| reflexivity].
    rewrite (wrap_u8_small (i + 1)), (wrap_u8_small (j - 1)) by lia.
    apply IH; lia.
Qed.

(** Without room for the value the loop stores outside the buffer. *)
Lemma encode_loop_overrun x ds bp :
  0 <= bp -> ds <= 4 ->
  forall (k fuel : nat) (i : Z) (buf : list Z),
    0 <= i -> i + Z.of_nat k = ds -> (0 < k)%nat ->
    Z.of_nat (length buf) < bp + ds ->
    encode_loop fuel x ds bp i (wrap_u8 (Z.of_nat k - 1)) buf = None.
Proof.
  intros Hbp Hds.
  induction k as [| k IH]; intros fuel i buf Hi Hik Hk Hlen; [lia |].
  assert (Hlt : (i <? ds) = true) by (apply Z.ltb_lt; lia).
  destruct fuel as [| fuel]; cbn [encode_loop]; rewrite Hlt; [reflexivity |].
  replace (Z.of_nat (S k) - 1) with (Z.of_nat k) by lia.
  rewrite (wrap_u8_small (Z.of_nat k)) by lia.
  rewrite encoded_byte_spec by lia.
  unfold store.
  destruct ((0 <=? bp + i) && (bp + i <? Z.of_nat (length buf))) eqn:Hin;
    [| reflexivity].
  apply andb_true_iff in Hin as [_ Hin]. apply Z.ltb_lt in Hin.
  rewrite (wrap_u8_small (i + 1)) by lia.
  apply IH; [lia | lia | lia | rewrite length_insert; lia].
Qed.

Lemma encode_loop_defined_iff x ds bp buf :
  0 <= bp ->
  is_Some (encode_loop 256 x ds bp 0 (wrap_u8 (ds - 1)) buf) <->
  ds <= 0 \/ (ds <= 4 /\ bp + ds <= Z.of_nat (length buf)).
Proof.
  intros Hbp. split.
  - intros Hsome.
    destruct (Z.le_gt_cases ds 0) as [H0 | H0]; [now left | right].
    destruct (Z.le_gt_cases ds 4) as [H4 | H4].
    + split; [exact H4 |].
      destruct (Z.le_gt_cases (bp + ds) (Z.of_nat (length buf))) as [Hc | Hc];
        [exact Hc | exfalso].
      pose proof (encode_loop_overrun x ds bp Hbp H4 (Z.to_nat ds) 256 0 buf)
        as Hnone.
      rewrite Z2Nat.id in Hnone by lia.
      rewrite Hnone in Hsome by lia.
      destruct Hsome as [? Hsome]. discriminate Hsome.
    + exfalso.
      destruct (Z.le_gt_cases ds 256) as [H256 | H256].
      * rewrite (wrap_u8_small (ds - 1)) in Hsome by lia.
        rewrite (encode_loop_wide x ds bp H256) in Hsome by lia.
        destruct Hsome as [? Hsome]. discriminate Hsome.
      * rewrite (encode_loop_unbounded x ds bp) in Hsome by lia.
        destruct Hsome as [? Hsome]. discriminate Hsome.
  - intros [H0 | [H4 Hc]].
    + rewrite encode_loop_no_iteration by exact H0. eauto.
    + destruct (Z.le_gt_cases ds 0) as [H0 | H0].
      * rewrite encode_loop_no_iteration by exact H0. eauto.
      * pose proof (encode_loop_spec x ds bp Hbp H4 (Z.to_nat ds) 256 0 buf)
          as Hloop.
        rewrite Z2Nat.id in Hloop by lia.
        rewrite Hloop by lia. eauto.
Qed.

End Definedness.

(** X1: a call of [encodeDataWithSchema] has a defined result exactly when
    [n_values] is not zero, the value converts to an [int], and either no
    byte is written or the value takes at most four bytes that all lie
    inside the buffer.  A codec of five or more bytes per value, and a
    buffer without room, are never handled. *)
Theorem encode_defined_iff v valid p s :
  is_Some (encodeDataWithSchema v valid p s) <->
  n_values s <> 0 /\
  is_Some (scaled_data v valid s) /\
  (data_size s <= 0 \/
   (data_size s <= 4 /\
    wrap_u8 (buffsize p) + data_size s <= Z.of_nat (length (buffer p)))).
Proof.
  assert (Hbp : 0 <= wrap_u8 (buffsize p))
    by (apply Z.mod_pos_bound; lia).
  pose proof (encode_loop_defined_iff) as Hloop.
  unfold encodeDataWithSchema, div_int.
  destruct (scaled_data v valid s) as [x |].
  - destruct (Z.eqb_spec (n_values s) 0) as [E | NE].
    + split; [intros [? H]; discriminate H | intros [H _]; contradiction].
    + fold (data_size s).
      specialize (Hloop x (data_size s) (wrap_u8 (buffsize p)) (buffer p) Hbp).
      destruct (encode_loop 256 x (data_size s) (wrap_u8 (buffsize p)) 0
                  (wrap_u8 (data_size s - 1)) (buffer p)) as [[i buf'] |].
      * split; [intros _ | eauto].
        split; [exact NE |]. split; [eauto |]. apply Hloop. eauto.
      * split; [intros [? H]; discriminate H |].
        intros (_ & _ & H). apply Hloop in H. destruct H as [? H].
        discriminate H.
  - split; [intros [? H]; discriminate H |].
    intros (_ & [? H] & _). discriminate H.
Qed.

(** ** The result of a call, whatever the new length *)

Section Result.

(** With room in the buffer the bytes are written as in [encoded_payload];
    the new [buffsize] is reduced to a [uint8_t]. *)
Lemma encode_spec_capacity v valid p s x :
  codec_ok s ->
  0 <= buffsize p < 256 ->
  buffsize p + data_size s <= Z.of_nat (length (buffer p)) ->
  scaled_data v valid s = Some x ->
  encodeDataWithSchema v valid p s =
  Some ({| buffer := buffer (encoded_payload p s x);
           buffsize := wrap_u8 (buffsize p + data_size s);
           port := port p; rssi := rssi p; snr := snr p |},
        warning_trace s x).
Proof.
  intros Hok Hb Hcap Hx.
  pose proof (data_size_nonneg s Hok) as Hds0.
  destruct Hok as (Hv & Hnb & Hds4).
  unfold encodeDataWithSchema.
  rewrite Hx, (div_int_data_size s) by (repeat split; assumption).
  rewrite (wrap_u8_small (buffsize p)) by lia.
  pose proof (encode_loop_spec x (data_size s) (buffsize p) (proj1 Hb) Hds4
                (Z.to_nat (data_size s)) 256 0 (buffer p)) as Hloop.
  rewrite Z2Nat.id in Hloop by lia.
  rewrite Hloop by lia.
  rewrite Z.add_0_r. reflexivity.
Qed.

Lemma length_encoded_capacity p s x :
  codec_ok s ->
  0 <= buffsize p ->
  buffsize p + data_size s <= Z.of_nat (length (buffer p)) ->
  length (buffer (encoded_payload p s x)) = length (buffer p).
Proof.
  intros Hok Hb0 Hcap.
  pose proof (data_size_nonneg s Hok) as Hds.
  unfold encoded_payload; cbn [buffer].
  rewrite !length_app, length_take_le, length_be_bytes, length_drop by lia.
  lia.
Qed.

Lemma encode_loop_bytes x ds bp :
  forall fuel i j buf i' buf',
    encode_loop fuel x ds bp i j buf = Some (i', buf') ->
    Forall (fun b => 0 <= b < 256) buf ->
    Forall (fun b => 0 <= b < 256) buf' /\ length buf' = length buf.
Proof.
  induction fuel as [| fuel IH]; intros i j buf i' buf' H Hbuf;
    cbn [encode_loop] in H; destruct (i <? ds);
    try discriminate H;
    try (injection H as <- <-; split; [exact Hbuf | reflexivity]).
  destruct (encoded_byte x j) as [b |] eqn:Hb; [| discriminate H].
  destruct (store buf (bp + i) b) as [buf1 |] eqn:Hst; [| discriminate H].
  assert (Hrange : 0 <= b < 256).
  { unfold encoded_byte in Hb.
    destruct (0 <? j).
    - destruct (shl_int 255 (wrap_u8 (j * 8))); [| discriminate Hb].
      destruct (shr_int _ _); [| discriminate Hb].
      injection Hb as <-. apply Z.mod_pos_bound. lia.
    - injection Hb as <-. apply Z.mod_pos_bound. lia. }
  unfold store in Hst.
  destruct ((0 <=? bp + i) && (bp + i <? Z.of_nat (length buf)));
    [| discriminate Hst].
  injection Hst as <-.
  destruct (IH _ _ _ _ _ H) as [HF HL].
  - apply Forall_insert; assumption.
  - split; [exact HF |]. rewrite HL. apply length_insert.
Qed.

(** Two integers have the same bytes when they agree modulo [2 ^ (8 * n)]. *)
Lemma be_bytes_mod_ge x (n k : nat) :
  (n <= k)%nat ->
  be_bytes n (x mod 2 ^ (8 * Z.of_nat k)) = be_bytes n x.
Proof.
  induction n as [| n IH]; intros Hk; [reflexivity |].
  cbn [be_bytes]. rewrite IH by lia. f_equal.
  rewrite <- Z.land_ones by lia.
  apply masked_byte; [lia |].
  intros i Hi. apply Z.ones_spec_low. lia.
Qed.

Lemma be_bytes_congruent (n : nat) x y :
  be_bytes n x = be_bytes n y <->
  x mod 2 ^ (8 * Z.of_nat n) = y mod 2 ^ (8 * Z.of_nat n).
Proof.
  split; intros H.
  - rewrite <- !be_combine_be_bytes. now rewrite H.
  - rewrite <- (be_bytes_mod_ge x n n), <- (be_bytes_mod_ge y n n) by lia.
    now rewrite H.
Qed.

Lemma encoded_payload_eq p s x y :
  codec_ok s -> room p s ->
  encoded_payload p s x = encoded_payload p s y <->
  be_bytes (Z.to_nat (data_size s)) x = be_bytes (Z.to_nat (data_size s)) y.
Proof.
  intros Hok Hroom. split; intros H.
  - apply (f_equal frame) in H.
    rewrite !frame_encoded in H by assumption.
    apply app_inv_head in H. exact H.
  - unfold encoded_payload. now rewrite H.
Qed.

End Result.

(** ** Further properties of one encoder call *)

(** X2: the new [buffsize] is kept in a [uint8_t].  A call that has room in
    a buffer longer than 255 bytes and takes the length to 256 or more
    still writes its bytes, but leaves [buffsize] 256 too small: the frame
    is then shorter than before the call. *)
Theorem encode_length_wraps v valid p s x :
  codec_ok s ->
  0 <= buffsize p < 256 ->
  buffsize p + data_size s <= Z.of_nat (length (buffer p)) ->
  256 <= buffsize p + data_size s ->
  scaled_data v valid s = Some x ->
  exists p' trace,
    encodeDataWithSchema v valid p s = Some (p', trace) /\
    buffer p' = buffer (encoded_payload p s x) /\
    buffsize p' = buffsize p + data_size s - 256 /\
    (length (frame p') < length (frame p))%nat.
Proof.
  intros Hok Hb Hcap Hover Hx.
  pose proof (data_size_nonneg s Hok) as Hds.
  assert (Hds4 : data_size s <= 4) by apply Hok.
  eexists _, _.
  split; [apply encode_spec_capacity; eassumption |].
  cbn [buffer buffsize].
  assert (Hw : wrap_u8 (buffsize p + data_size s)
               = buffsize p + data_size s - 256).
  { unfold wrap_u8. symmetry.
    apply (Z.mod_unique_pos _ 256 1); lia. }
  split; [reflexivity |]. split; [exact Hw |].
  unfold frame; cbn [buffer buffsize]. rewrite Hw.
  pose proof (length_encoded_capacity p s x Hok (proj1 Hb) Hcap) as Hlen.
  rewrite !length_take_le; lia.
Qed.

Lemma encode_length_wraps_witness :
  exists p' trace,
    encodeDataWithSchema (of_float f3_85) true long_payload pressure_like
    = Some (p', trace) /\
    buffer p' = buffer (encoded_payload long_payload pressure_like 385) /\
    buffsize p' = 2 /\
    (length (frame p') < length (frame long_payload))%nat.
Proof.
  apply (encode_length_wraps (of_float f3_85) true long_payload pressure_like
           385); [concrete | concrete | concrete | concrete | reflexivity].
Defined.

(** X3: two calls in a row append the bytes of the first value, then the
    bytes of the second, and log the events of both in order. *)
Theorem two_calls_append v1 valid1 s1 x1 v2 valid2 s2 x2 p :
  codec_ok s1 -> codec_ok s2 ->
  0 <= buffsize p ->
  buffsize p + data_size s1 + data_size s2 <= Z.of_nat (length (buffer p)) ->
  buffsize p + data_size s1 + data_size s2 <= 255 ->
  scaled_data v1 valid1 s1 = Some x1 ->
  scaled_data v2 valid2 s2 = Some x2 ->
  exists p1 p2,
    encodeDataWithSchema v1 valid1 p s1 = Some (p1, warning_trace s1 x1) /\
    encodeDataWithSchema v2 valid2 p1 s2 = Some (p2, warning_trace s2 x2) /\
    frame p2 = frame p ++ be_bytes (Z.to_nat (data_size s1)) x1
                       ++ be_bytes (Z.to_nat (data_size s2)) x2 /\
    buffsize p2 = buffsize p + data_size s1 + data_size s2.
Proof.
  intros Hok1 Hok2 Hb Hcap H255 Hx1 Hx2.
  pose proof (data_size_nonneg s1 Hok1) as Hds1.
  pose proof (data_size_nonneg s2 Hok2) as Hds2.
  assert (Hroom1 : room p s1) by (unfold room; lia).
  assert (Hroom2 : room (encoded_payload p s1 x1) s2).
  { unfold room. rewrite length_encoded by assumption.
    cbn [encoded_payload buffsize]. lia. }
  exists (encoded_payload p s1 x1),
         (encoded_payload (encoded_payload p s1 x1) s2 x2).
  split; [apply encode_spec; assumption |].
  split; [apply encode_spec; assumption |].
  split.
  - rewrite !frame_encoded by assumption. now rewrite app_assoc.
  - reflexivity.
Qed.

Lemma two_calls_append_witness :
  exists p1 p2,
    encodeDataWithSchema (of_float minus_half) true started_payload
      temperature_like = Some (p1, []) /\
    encodeDataWithSchema (of_float f3_85) true p1 batteryVoltage_like
    = Some (p2, []) /\
    frame p2 = [0xAA; 0xBB] ++ [0xFF; 0xCE] ++ [0x01; 0x81] /\
    buffsize p2 = 6.
Proof.
  apply (two_calls_append (of_float minus_half) true temperature_like (-50)
           (of_float f3_85) true batteryVoltage_like 385 started_payload);
    [concrete | concrete | concrete | concrete | concrete
    | reflexivity | reflexivity].
Defined.

(** X4: two readings leave the same payload exactly when their scaled
    integers agree modulo [2 ^ (8 * data_size)]: within the range of the
    field different integers give different bytes, and an integer beyond it
    is sent as the integer it wraps to. *)
Theorem encode_same_payload_iff v1 valid1 x1 v2 valid2 x2 p s :
  codec_ok s -> room p s ->
  scaled_data v1 valid1 s = Some x1 ->
  scaled_data v2 valid2 s = Some x2 ->
  (fst <$> encodeDataWithSchema v1 valid1 p s
   = fst <$> encodeDataWithSchema v2 valid2 p s) <->
  x1 mod 2 ^ (8 * data_size s) = x2 mod 2 ^ (8 * data_size s).
Proof.
  intros Hok Hroom Hx1 Hx2.
  pose proof (data_size_nonneg s Hok) as Hds.
  rewrite (encode_spec v1 valid1 p s x1 Hok Hroom Hx1).
  rewrite (encode_spec v2 valid2 p s x2 Hok Hroom Hx2).
  cbn [fmap option_fmap option_map fst].
  pose proof (be_bytes_congruent (Z.to_nat (data_size s)) x1 x2) as Hc.
  rewrite Z2Nat.id in Hc by exact Hds.
  pose proof (encoded_payload_eq p s x1 x2 Hok Hroom) as He.
  rewrite <- Hc, <- He.
  split; [intros H | intros ->; reflexivity].
  exact (f_equal (fun o => match o with Some q => q | None => p end) H).
Qed.

Lemma encode_same_payload_iff_witness :
  fst <$> encodeDataWithSchema (of_int 1) true started_payload batteryVoltage_like
  = fst <$> encodeDataWithSchema (of_float f656_36) true started_payload
              batteryVoltage_like.
Proof.
  apply (encode_same_payload_iff (of_int 1) true 100 (of_float f656_36) true
           65636 started_payload batteryVoltage_like);
    [concrete | concrete | reflexivity | reflexivity | reflexivity].
Defined.

(** X5: a valid reading whose scaled integer has the bytes of the sentinel
    (0x7F7F... for a signed codec, 0xFFFF... for an unsigned one) leaves
    the payload of an invalid reading: the two cannot be told apart by the
    bytes sent. *)
Theorem valid_reading_sent_as_invalid v v' p s x :
  codec_ok s -> room p s ->
  scaled_data v true s = Some x ->
  x mod 2 ^ (8 * data_size s)
  = (if is_signed s then 0x7F7F7F7F else 0xFFFFFFFF) mod 2 ^ (8 * data_size s) ->
  fst <$> encodeDataWithSchema v true p s
  = fst <$> encodeDataWithSchema v' false p s.
Proof.
  intros Hok Hroom Hx Hmod.
  pose proof (data_size_nonneg s Hok) as Hds.
  pose proof (scaled_data_invalid s v') as Hx'.
  rewrite (encode_spec v true p s x Hok Hroom Hx).
  rewrite (encode_spec v' false p s _ Hok Hroom Hx').
  cbn [fmap option_fmap option_map fst]. f_equal.
  apply encoded_payload_eq; [assumption | assumption |].
  apply be_bytes_congruent. rewrite Z2Nat.id by exact Hds.
  rewrite Hmod.
  assert (Hc : data_size s = 0 \/ data_size s = 1 \/ data_size s = 2 \/
               data_size s = 3 \/ data_size s = 4)
    by (destruct Hok as (_ & _ & H4); lia).
  destruct (is_signed s);
    destruct Hc as [E | [E | [E | [E | E]]]]; rewrite E; reflexivity.
Qed.

Lemma valid_reading_sent_as_invalid_witness :
  fst <$> encodeDataWithSchema (of_float f326_39) true started_payload
            temperature_like
  = fst <$> encodeDataWithSchema (of_int 0) false started_payload
              temperature_like.
Proof.
  apply (valid_reading_sent_as_invalid (of_float f326_39) (of_int 0)
           started_payload temperature_like 32639);
    [concrete | concrete | reflexivity | reflexivity].
Defined.

(** X6: every call that is defined keeps the capacity of the buffer and
    stores only bytes: a buffer of values in 0..255 stays one. *)
Theorem encode_keeps_bytes v valid p s p' trace :
  encodeDataWithSchema v valid p s = Some (p', trace) ->
  Forall (fun b => 0 <= b < 256) (buffer p) ->
  Forall (fun b => 0 <= b < 256) (buffer p') /\
  length (buffer p') = length (buffer p) /\
  0 <= buffsize p' < 256.
Proof.
  unfold encodeDataWithSchema. intros H Hbuf.
  destruct (scaled_data v valid s) as [x |]; [| discriminate H].
  destruct (div_int (n_bytes s) (n_values s)) as [ds |]; [| discriminate H].
  destruct (encode_loop 256 x ds (wrap_u8 (buffsize p)) 0 (wrap_u8 (ds - 1))
              (buffer p)) as [[i buf'] |] eqn:Hloop; [| discriminate H].
  injection H as <- _. cbn [buffer buffsize].
  destruct (encode_loop_bytes _ _ _ _ _ _ _ _ _ Hloop Hbuf) as [HF HL].
  repeat split; try assumption; apply Z.mod_pos_bound; lia.
Qed.

Lemma encode_keeps_bytes_witness :
  Forall (fun b => 0 <= b < 256)
    [0xAA; 0xBB; 0xFF; 0xCE; 3; 4; 5; 6].
Proof.
  apply (encode_keeps_bytes (of_float minus_half) true started_payload
           batteryVoltage_like
           {| buffer := [0xAA; 0xBB; 0xFF; 0xCE; 3; 4; 5; 6]; buffsize := 4;
              port := 7; rssi := -60; snr := 9 |}
           [(WARN, unsigned_warning)]).
  - reflexivity.
  - repeat constructor; lia.
Defined.

(** X7: the warning of lines 34-36 is logged exactly when the codec is
    unsigned and the integer to encode is negative.  Since the unsigned
    sentinel 0xFFFFFFFF is -1 as an [int], every invalid reading of an
    unsigned codec logs it; a signed codec never does. *)
Theorem warning_logged_iff v valid p s p' trace :
  encodeDataWithSchema v valid p s = Some (p', trace) ->
  exists x,
    scaled_data v valid s = Some x /\
    (trace = [(WARN, unsigned_warning)] <-> is_signed s = false /\ x < 0) /\
    (trace = [] <-> is_signed s = true \/ 0 <= x) /\
    (valid = false -> is_signed s = false ->
     trace = [(WARN, unsigned_warning)]).
Proof.
  unfold encodeDataWithSchema. intros H.
  destruct (scaled_data v valid s) as [x |] eqn:Hx; [| discriminate H].
  destruct (div_int (n_bytes s) (n_values s)) as [ds |]; [| discriminate H].
  destruct (encode_loop 256 x ds _ 0 _ (buffer p)) as [[i buf'] |];
    [| discriminate H].
  injection H as _ <-.
  exists x. split; [reflexivity |].
  assert (Hinv : valid = false -> is_signed s = false -> x = -1).
  { intros -> Hu. unfold scaled_data in Hx. rewrite Hu in Hx.
    injection Hx as <-. reflexivity. }
  destruct (is_signed s); cbn [negb andb];
    [| destruct (Z.ltb_spec x 0) as [Hneg | Hpos]; unfold log];
    repeat split; intros;
    try (specialize (Hinv ltac:(assumption) ltac:(assumption)));
    intuition (try discriminate; try lia).
Qed.

Lemma warning_logged_iff_witness :
  exists x,
    scaled_data (of_float f3_85) false batteryVoltage_like = Some x /\
    ([(WARN, unsigned_warning)] = [(WARN, unsigned_warning)]
     <-> is_signed batteryVoltage_like = false /\ x < 0) /\
    ([(WARN, unsigned_warning)] = []
     <-> is_signed batteryVoltage_like = true \/ 0 <= x) /\
    (false = false -> is_signed batteryVoltage_like = false ->
     [(WARN, unsigned_warning)] = [(WARN, unsigned_warning)]).
Proof.
  apply (warning_logged_iff (of_float f3_85) false (empty_payload 4)
           batteryVoltage_like
           {| buffer := [0xFF; 0xFF; 0; 0]; buffsize := 2;
              port := 1; rssi := 0; snr := 0 |}).
  reflexivity.
Defined.

(** ** Floating-point operations that cannot give NaN *)

Section NoNaN.

Variables prec emax : Z.

Lemma shr_1_nonneg mrs : 0 <= shr_m mrs -> 0 <= shr_m (shr_1 mrs).
Proof.
  destruct mrs as [m r t]. cbn [shr_m].
  destruct m as [| q | q]; [cbn; lia | | lia].
  intros _. destruct q; cbn; lia.
Qed.

Lemma iter_shr_1_nonneg n :
  forall mrs, 0 <= shr_m mrs -> 0 <= shr_m (SpecFloat.iter_pos shr_1 n mrs).
Proof.
  induction n as [n IH | n IH |]; intros mrs H; cbn [SpecFloat.iter_pos].
  - apply IH, IH, shr_1_nonneg, H.
  - apply IH, IH, H.
  - apply shr_1_nonneg, H.
Qed.

Lemma shr_nonneg mrs e n : 0 <= shr_m mrs -> 0 <= shr_m (fst (shr mrs e n)).
Proof.
  intros H. unfold shr. destruct n; cbn [fst]; try exact H.
  apply iter_shr_1_nonneg, H.
Qed.

Lemma shr_m_of_loc m l : shr_m (shr_record_of_loc m l) = m.
Proof. destruct l as [| []]; reflexivity. Qed.

Lemma shr_fexp_nonneg m e l :
  0 <= m -> 0 <= shr_m (fst (shr_fexp prec emax m e l)).
Proof.
  intros H. unfold shr_fexp. apply shr_nonneg.
  rewrite shr_m_of_loc. exact H.
Qed.

Lemma round_nearest_even_nonneg m l : 0 <= m -> 0 <= round_nearest_even m l.
Proof.
  intros H. unfold round_nearest_even.
  destruct l as [| []]; try exact H; [destruct (Z.even m) |]; lia.
Qed.

(** Rounding a non-negative mantissa gives a zero, a finite number or an
    infinity. *)
Lemma binary_round_aux_not_nan sx mx ex lx :
  0 <= mx -> binary_round_aux prec emax sx mx ex lx <> S754_nan.
Proof.
  intros H. unfold binary_round_aux.
  pose proof (shr_fexp_nonneg mx ex lx H) as H1.
  destruct (shr_fexp prec emax mx ex lx) as [mrs' e']. cbn [fst] in H1.
  pose proof (shr_fexp_nonneg _ e' loc_Exact
                (round_nearest_even_nonneg _ (loc_of_shr_record mrs') H1)) as H2.
  destruct (shr_fexp prec emax _ e' loc_Exact) as [mrs'' e''].
  cbn [fst] in H2.
  destruct (shr_m mrs'') as [| q | q]; [discriminate | | lia].
  destruct (e'' <=? emax - prec); discriminate.
Qed.

Lemma binary_round_not_nan sx mx ex : binary_round prec emax sx mx ex <> S754_nan.
Proof.
  unfold binary_round.
  destruct (shl_align mx ex _) as [mz ez].
  apply binary_round_aux_not_nan. lia.
Qed.

Lemma binary_normalize_not_nan m e szero :
  binary_normalize prec emax m e szero <> S754_nan.
Proof.
  unfold binary_normalize.
  destruct m; [discriminate | apply binary_round_not_nan ..].
Qed.

Lemma SFsub_not_nan x y :
  x <> S754_nan -> is_finite y = true -> SFsub prec emax x y <> S754_nan.
Proof.
  intros Hx Hy.
  destruct y as [| | | sy my ey]; try discriminate Hy.
  destruct x as [sx | sx | | sx mx ex]; cbn [SFsub];
    try discriminate; try contradiction.
  apply binary_normalize_not_nan.
Qed.

Lemma SFmul_not_nan x y :
  x <> S754_nan -> is_finite y = true -> SFmul prec emax x y <> S754_nan.
Proof.
  intros Hx Hy.
  destruct y as [| | | sy my ey]; try discriminate Hy.
  destruct x as [sx | sx | | sx mx ex]; cbn [SFmul];
    try discriminate; try contradiction.
  apply binary_round_aux_not_nan. lia.
Qed.

Lemma SFdiv_not_nan x y :
  x <> S754_nan -> is_finite y = true -> SFdiv prec emax x y <> S754_nan.
Proof.
  intros Hx Hy.
  destruct y as [| | | sy my ey]; try discriminate Hy.
  destruct x as [sx | sx | | sx mx ex]; cbn [SFdiv];
    try discriminate; try contradiction.
  unfold SFdiv_core_binary.
  set (m' := match _ with Z.pos _ => _ | Z0 => _ | Z.neg _ => _ end).
  assert (Hm : 0 <= m').
  { subst m'. destruct (_ - _ - _) as [| q | q]; [lia | | lia].
    apply Z.shiftl_nonneg. lia. }
  pose proof (Z.div_pos m' (Z.pos my) Hm ltac:(lia)) as Hq.
  unfold Z.div in Hq.
  destruct (Z.div_eucl m' (Z.pos my)) as [q r].
  apply binary_round_aux_not_nan. exact Hq.
Qed.

Lemma SFadd_not_nan x y :
  is_zero_or_finite x = true -> y <> S754_nan ->
  SFadd prec emax x y <> S754_nan.
Proof.
  intros Hx Hy.
  destruct x as [sx | | | sx mx ex]; try discriminate Hx;
    destruct y as [sy | sy | | sy my ey]; cbn [SFadd];
    try discriminate; try contradiction.
  - destruct sx, sy; discriminate.
  - apply binary_normalize_not_nan.
Qed.

End NoNaN.

(** ** Comparing floats *)

Section Compare.

Lemma SFcompare_antisym x y :
  SFcompare y x = option_map CompOpp (SFcompare x y).
Proof.
  destruct x as [sx | sx | | sx mx ex], y as [sy | sy | | sy my ey];
    cbn [SFcompare option_map]; try reflexivity;
    try (destruct sx; reflexivity); try (destruct sy; reflexivity);
    try (destruct sx, sy; reflexivity).
  pose proof (Pos.compare_cont_antisym mx my Eq) as Hm.
  cbn [CompOpp] in Hm.
  destruct sx, sy; cbn [CompOpp]; try reflexivity;
    rewrite (Z.compare_antisym ey ex);
    destruct (ey ?= ex); cbn [CompOpp]; try reflexivity;
    rewrite <- Hm;
    destruct (Pos.compare_cont Eq mx my); reflexivity.
Qed.

Lemma SFcompare_not_nan x y :
  x <> S754_nan -> y <> S754_nan -> SFcompare x y <> None.
Proof.
  intros Hx Hy.
  destruct x as [sx | sx | | sx mx ex], y as [sy | sy | | sy my ey];
    cbn [SFcompare]; try discriminate; contradiction.
Qed.

(** Two numbers that are not NaN compare one way or the other. *)
Lemma SFleb_of_not_ltb x y :
  x <> S754_nan -> y <> S754_nan ->
  SFltb y x = false -> SFleb x y = true.
Proof.
  intros Hx Hy. unfold SFltb, SFleb.
  pose proof (SFcompare_not_nan y x Hy Hx) as Hc.
  rewrite (SFcompare_antisym y x).
  destruct (SFcompare y x) as [[] |]; cbn [option_map CompOpp];
    try reflexivity; try discriminate. contradiction.
Qed.

End Compare.

(** ** The state of charge *)

Section StateOfCharge.

Lemma soc_entry_ok i :
  1 <= i <= 10 ->
  soc_state_ok (soc_mv i, soc_mv (i - 1),
                Float32.mul (Float32.of_int (i - 1)) (Float32.of_int 10))
  = true.
Proof.
  intros Hi.
  assert (Hc : i = 1 \/ i = 2 \/ i = 3 \/ i = 4 \/ i = 5 \/ i = 6 \/ i = 7 \/
               i = 8 \/ i = 9 \/ i = 10) by lia.
  repeat (destruct Hc as [-> | Hc]; [vm_compute; reflexivity |]).
  subst i. vm_compute. reflexivity.
Qed.

(** The search ends in a state that interpolates between two distinct
    table entries. *)
Lemma soc_loop_ok mvolts :
  forall fuel i st,
    1 <= i -> soc_state_ok st = true ->
    soc_state_ok (soc_loop fuel mvolts i st) = true.
Proof.
  induction fuel as [| fuel IH]; intros i st Hi Hst; cbn [soc_loop];
    destruct (Z.ltb_spec i SOC_MV_LOOKUP_SIZE) as [Hlt | Hge];
    try exact Hst.
  destruct (Float32.leb mvolts (soc_mv i)).
  - apply soc_entry_ok. unfold SOC_MV_LOOKUP_SIZE in Hlt. lia.
  - apply IH; [lia | exact Hst].
Qed.

Lemma correct_range_in_range v :
  v <> S754_nan ->
  Float32.leb (Float32.of_int 0) (correct_range v) = true /\
  Float32.leb (correct_range v) (Float32.of_int 100) = true.
Proof.
  intros Hv. unfold correct_range, Float32.ltb, Float32.leb.
  destruct (SFltb v (Float32.of_int 0)) eqn:H0; [split; reflexivity |].
  destruct (SFltb (Float32.of_int 100) v) eqn:H100; [split; reflexivity |].
  split; apply SFleb_of_not_ltb; try assumption; discriminate.
Qed.

Lemma mvToSoC_not_nan mvolts :
  mvolts <> S754_nan ->
  exists v, v <> S754_nan /\ fst (mvToSoC mvolts) = correct_range v.
Proof.
  intros Hm. unfold mvToSoC.
  pose proof (soc_loop_ok mvolts 11 1
                (soc_mv (SOC_MV_LOOKUP_SIZE - 1),
                 soc_mv (SOC_MV_LOOKUP_SIZE - 2), Float32.of_int 100)
                ltac:(lia) ltac:(reflexivity)) as Hok.
  destruct (soc_loop 11 mvolts 1 _) as [[high low] soc].
  cbn [soc_state_ok] in Hok.
  apply andb_true_iff in Hok as [Hok Hsoc].
  apply andb_true_iff in Hok as [Hlow Hdiff].
  eexists. split; [| reflexivity].
  apply SFadd_not_nan; [exact Hsoc |].
  apply SFdiv_not_nan; [| exact Hdiff].
  apply SFmul_not_nan; [| reflexivity].
  apply SFsub_not_nan; assumption.
Qed.

End StateOfCharge.

(** X8: [mvToSoC] returns a state of charge between 0 and 100 for every
    voltage that is a number, infinities included; only a NaN passes the
    range correction, and comes back as NaN. *)
Theorem mvToSoC_in_range_iff mvolts :
  Float32.leb (Float32.of_int 0) (fst (mvToSoC mvolts)) = true /\
  Float32.leb (fst (mvToSoC mvolts)) (Float32.of_int 100) = true
  <-> mvolts <> S754_nan.
Proof.
  split.
  - intros [H _] ->. vm_compute in H. discriminate H.
  - intros Hm.
    destruct (mvToSoC_not_nan mvolts Hm) as (v & Hv & ->).
    apply correct_range_in_range. exact Hv.
Qed.

(** X9: at each entry of the lookup table the state of charge is the
    percentage of that entry: 0 at 3300 mV, 10 at 3584 mV, ..., 100 at
    4200 mV. *)
Theorem mvToSoC_at_table_entry i :
  0 <= i <= 10 ->
  fst (mvToSoC (soc_mv i)) = Float32.of_int (10 * i).
Proof.
  intros Hi.
  assert (Hc : i = 0 \/ i = 1 \/ i = 2 \/ i = 3 \/ i = 4 \/ i = 5 \/ i = 6 \/
               i = 7 \/ i = 8 \/ i = 9 \/ i = 10) by lia.
  repeat (destruct Hc as [-> | Hc]; [vm_compute; reflexivity |]).
  subst i. vm_compute. reflexivity.
Qed.

Lemma mvToSoC_at_table_entry_witness :
  fst (mvToSoC (Float32.of_int 3725)) = Float32.of_int 30.
Proof. apply (mvToSoC_at_table_entry 3). lia. Defined.

(** ** The table of ports *)

Section PortTable.

Lemma NoDup_map_eq {A B : Type} (f : A -> B) (l : list A) a b :
  NoDup (map f l) -> In a l -> In b l -> f a = f b -> a = b.
Proof.
  induction l as [| c l IH]; intros Hnd Ha Hb Hf; [destruct Ha |].
  cbn [map] in Hnd. apply NoDup_cons in Hnd as [Hc Hnd].
  assert (Hin : forall d, In d l -> f d <> f c).
  { intros d Hd E. apply Hc. rewrite <- E.
    apply list_elem_of_In, in_map, Hd. }
  destruct Ha as [-> | Ha], Hb as [-> | Hb].
  - reflexivity.
  - exfalso. apply (Hin b Hb). symmetry. exact Hf.
  - exfalso. apply (Hin a Ha). exact Hf.
  - apply IH; assumption.
Qed.

Lemma port_numbers_NoDup : NoDup (map port_number registered_ports).
Proof. apply (bool_decide_unpack _). vm_compute. exact I. Qed.

Lemma port_flags_NoDup : NoDup (map flags registered_ports).
Proof. apply (bool_decide_unpack _). vm_compute. exact I. Qed.

Lemma registered_ports_not_error :
  Forall (fun q => 1 <= port_number q <= 59 /\ flags q <> flags PORTERROR)
    registered_ports.
Proof. repeat constructor; try lia; discriminate. Qed.

End PortTable.

(** X10: among the ports PortSchema.h defines, the port number identifies
    the port and so does the set of included fields; none has the number
    or the (empty) field set of [PORTERROR]. *)
Theorem registered_ports_distinct q1 q2 :
  In q1 registered_ports -> In q2 registered_ports ->
  (port_number q1 = port_number q2 \/ flags q1 = flags q2 -> q1 = q2) /\
  port_number q1 <> port_number PORTERROR /\
  flags q1 <> flags PORTERROR.
Proof.
  intros H1 H2. split.
  - intros [E | E].
    + exact (NoDup_map_eq port_number _ _ _ port_numbers_NoDup H1 H2 E).
    + exact (NoDup_map_eq flags _ _ _ port_flags_NoDup H1 H2 E).
  - pose proof registered_ports_not_error as HF.
    rewrite List.Forall_forall in HF.
    destruct (HF q1 H1) as [Hn Hf].
    split; [cbn; unfold UINT8_MAX; lia | exact Hf].
Qed.

Lemma registered_ports_distinct_witness :
  (port_number PORT3 = port_number PORT53 \/ flags PORT3 = flags PORT53 ->
   PORT3 = PORT53) /\
  port_number PORT3 <> port_number PORTERROR /\
  flags PORT3 <> flags PORTERROR.
Proof.
  apply (registered_ports_distinct PORT3 PORT53); cbn; tauto.
Defined.

(** X11: for every port numbered 1 to 9 the table holds the port numbered
    50 higher, which includes the same fields and the location. *)
Theorem location_port_of q :
  In q registered_ports -> 1 <= port_number q <= 9 ->
  exists q',
    In q' registered_ports /\
    port_number q' = port_number q + 50 /\
    forall kind,
      includes q' kind = includes q kind || includes PORT50 kind.
Proof.
  intros Hq Hn. cbn in Hq.
  repeat (destruct Hq as [<- | Hq];
          [first
             [ exfalso; cbn in Hn; lia
             | match goal with
               | |- exists q', _ /\ port_number q' = port_number ?p + 50 /\ _ =>
                   let found :=
                     eval vm_compute in
                       (List.find (fun x => port_number x =? port_number p + 50)
                          registered_ports) in
                   match found with Some ?x => exists x end
               end;
               split;
               [ cbn; repeat (first [left; reflexivity | right])
               | split; [reflexivity | intros []; reflexivity] ] ] |]).
  destruct Hq.
Qed.

Lemma location_port_of_witness :
  exists q',
    In q' registered_ports /\
    port_number q' = 57 /\
    forall kind,
      includes q' kind = includes PORT7 kind || includes PORT50 kind.
Proof.
  apply (location_port_of PORT7); cbn; [tauto | lia].
Defined.

(** ** Timestamps *)

Section Timestamps.

Lemma length_append (a b : string) :
  String.length (String.append a b) = (String.length a + String.length b)%nat.
Proof. induction a as [| c a IH]; cbn; [reflexivity | now rewrite IH]. Qed.

Lemma substring_all (n : nat) (t : string) :
  (String.length t <= n)%nat -> substring 0 n t = t.
Proof.
  revert n. induction t as [| c t IH]; intros n Hn.
  - destruct n; reflexivity.
  - destruct n as [| n]; cbn in Hn; [lia |].
    cbn. rewrite IH by lia. reflexivity.
Qed.

(** A check that holds for every number below a bound holds below it. *)
Lemma checked_below (P : Z -> bool) (N : nat) :
  forallb (fun k => P (Z.of_nat k)) (seq 0 N) = true ->
  forall n, 0 <= n < Z.of_nat N -> P n = true.
Proof.
  intros H n Hn. rewrite forallb_forall in H.
  specialize (H (Z.to_nat n)). rewrite Z2Nat.id in H by lia.
  apply H, in_seq. lia.
Qed.

Lemma length_pad0_2 n : 0 <= n < 100 -> String.length (pad0 2 n) = 2%nat.
Proof.
  intros Hn. apply Nat.eqb_eq.
  apply (checked_below (fun k => String.length (pad0 2 k) =? 2)%nat 100);
    [vm_compute; reflexivity | exact Hn].
Qed.

Lemma length_pad0_3 n : 0 <= n < 1000 -> String.length (pad0 3 n) = 3%nat.
Proof.
  intros Hn. apply Nat.eqb_eq.
  apply (checked_below (fun k => String.length (pad0 3 k) =? 3)%nat 1000);
    [vm_compute; reflexivity | exact Hn].
Qed.

Lemma length_dec_hours n :
  0 <= n < 1194 -> (1 <= String.length (dec n) <= 4)%nat.
Proof.
  intros Hn.
  assert (H : ((1 <=? String.length (dec n))
               && (String.length (dec n) <=? 4))%nat = true).
  { apply (checked_below
             (fun k => ((1 <=? String.length (dec k))
                        && (String.length (dec k) <=? 4))%nat) 1194);
      [vm_compute; reflexivity | exact Hn]. }
  apply andb_true_iff in H as [H1 H2].
  apply Nat.leb_le in H1, H2. lia.
Qed.

(** The fields of a 32-bit timestamp under the units of the clock. *)
Lemma timestamp_fields_recombine_bounds timestamp :
  0 <= timestamp < 2 ^ 32 ->
  exists HH MM SS ms,
    timestamp_fields clock_units timestamp = Some (HH, MM, SS, ms) /\
    0 <= HH < 1194 /\ 0 <= MM < 100 /\ 0 <= SS < 100 /\ 0 <= ms < 1000.
Proof.
  intros Ht. unfold timestamp_fields. cbn [MS_IN_HOUR MS_IN_MINUTE MS_IN_SECOND
    clock_units Z.eqb orb].
  eexists _, _, _, _. split; [reflexivity |].
  change (2 ^ 32) with 4294967296 in Ht.
  pose proof (Z.mod_pos_bound timestamp 3600000 ltac:(lia)).
  pose proof (Z.mod_pos_bound timestamp 60000 ltac:(lia)).
  pose proof (Z.mod_pos_bound timestamp 1000 ltac:(lia)).
  repeat split; try (apply Z.div_pos; lia);
    try (apply Z.div_lt_upper_bound; lia); lia.
Qed.

End Timestamps.

(** X12: when a minute is a whole number of seconds and an hour a whole
    number of minutes, the four fields of [formatTimestamp] lose nothing:
    they add up to the timestamp, with the minutes, seconds and
    milliseconds each below one unit of the next field. *)
Theorem timestamp_fields_recombine u timestamp a b :
  0 < MS_IN_SECOND u -> 0 < a -> 0 < b ->
  MS_IN_MINUTE u = a * MS_IN_SECOND u ->
  MS_IN_HOUR u = b * MS_IN_MINUTE u ->
  0 <= timestamp ->
  exists HH MM SS ms,
    timestamp_fields u timestamp = Some (HH, MM, SS, ms) /\
    HH * MS_IN_HOUR u + MM * MS_IN_MINUTE u + SS * MS_IN_SECOND u + ms
    = timestamp /\
    0 <= HH /\ 0 <= MM < b /\ 0 <= SS < a /\ 0 <= ms < MS_IN_SECOND u.
Proof.
  intros HS Ha Hb HM HH Ht.
  set (S := MS_IN_SECOND u) in *. set (M := MS_IN_MINUTE u) in *.
  set (H := MS_IN_HOUR u) in *.
  assert (HM0 : 0 < M) by nia. assert (HH0 : 0 < H) by nia.
  unfold timestamp_fields. fold S M H.
  destruct (Z.eqb_spec H 0); [lia |].
  destruct (Z.eqb_spec M 0); [lia |].
  destruct (Z.eqb_spec S 0); [lia |].
  cbn [orb]. eexists _, _, _, _. split; [reflexivity |].
  assert (E1 : timestamp mod M = (timestamp mod H) mod M).
  { symmetry. apply Z.mod_mod_divide. exists b. exact HH. }
  assert (E2 : timestamp mod S = (timestamp mod M) mod S).
  { symmetry. apply Z.mod_mod_divide. exists a. exact HM. }
  pose proof (Z.div_mod timestamp H ltac:(lia)) as D1.
  pose proof (Z.div_mod (timestamp mod H) M ltac:(lia)) as D2.
  pose proof (Z.div_mod (timestamp mod M) S ltac:(lia)) as D3.
  pose proof (Z.mod_pos_bound timestamp H HH0) as B1.
  pose proof (Z.mod_pos_bound timestamp M HM0) as B2.
  pose proof (Z.mod_pos_bound timestamp S HS) as B3.
  rewrite <- E1 in D2. rewrite <- E2 in D3.
  split; [lia |].
  split; [apply Z.div_pos; lia |].
  split; [split; [apply Z.div_pos; lia | apply Z.div_lt_upper_bound; lia] |].
  split; [split; [apply Z.div_pos; lia | apply Z.div_lt_upper_bound; lia] |].
  exact B3.
Qed.

Lemma timestamp_fields_recombine_witness :
  exists HH MM SS ms,
    timestamp_fields clock_units 3723004 = Some (HH, MM, SS, ms) /\
    HH * 3600000 + MM * 60000 + SS * 1000 + ms = 3723004 /\
    0 <= HH /\ 0 <= MM < 60 /\ 0 <= SS < 60 /\ 0 <= ms < 1000.
Proof.
  apply (timestamp_fields_recombine clock_units 3723004 60 60);
    first [reflexivity | concrete].
Defined.

(** X13: with the units of the clock and a 32-bit timestamp, the text of
    [formatTimestamp] is the hours (one to four digits), two digits of
    minutes, two of seconds and three of milliseconds: at most 14
    characters, so a buffer of 15 or more (the log uses 40) holds it
    whole. *)
Theorem formatTimestamp_fits timestamp buffer_len :
  0 <= timestamp < 2 ^ 32 -> 15 <= buffer_len ->
  exists HH MM SS ms,
    timestamp_fields clock_units timestamp = Some (HH, MM, SS, ms) /\
    formatTimestamp clock_units timestamp buffer_len
    = Some (timestamp_text (HH, MM, SS, ms)) /\
    (1 <= String.length (dec HH) <= 4)%nat /\
    String.length (pad0 2 MM) = 2%nat /\
    String.length (pad0 2 SS) = 2%nat /\
    String.length (pad0 3 ms) = 3%nat /\
    String.length (timestamp_text (HH, MM, SS, ms))
    = (String.length (dec HH) + 10)%nat.
Proof.
  intros Ht Hlen.
  destruct (timestamp_fields_recombine_bounds timestamp Ht)
    as (HH & MM & SS & ms & Hf & HHH & HMM & HSS & Hms).
  exists HH, MM, SS, ms.
  pose proof (length_dec_hours HH HHH) as L1.
  pose proof (length_pad0_2 MM HMM) as L2.
  pose proof (length_pad0_2 SS HSS) as L3.
  pose proof (length_pad0_3 ms Hms) as L4.
  assert (L : String.length (timestamp_text (HH, MM, SS, ms))
              = (String.length (dec HH) + 10)%nat).
  { unfold timestamp_text.
    rewrite length_append. cbn [String.length].
    rewrite length_append. cbn [String.length].
    rewrite length_append. cbn [String.length].
    lia. }
  repeat split; try assumption; try lia.
  unfold formatTimestamp. rewrite Hf. unfold snprintf.
  destruct (Z.ltb_spec buffer_len 0); [lia |].
  destruct (Z.eqb_spec buffer_len 0); [lia |].
  rewrite substring_all by lia. reflexivity.
Qed.

Lemma formatTimestamp_fits_witness :
  exists HH MM SS ms,
    timestamp_fields clock_units 4294967295 = Some (HH, MM, SS, ms) /\
    formatTimestamp clock_units 4294967295 40
    = Some (timestamp_text (HH, MM, SS, ms)) /\
    (1 <= String.length (dec HH) <= 4)%nat /\
    String.length (pad0 2 MM) = 2%nat /\
    String.length (pad0 2 SS) = 2%nat /\
    String.length (pad0 3 ms) = 3%nat /\
    String.length (timestamp_text (HH, MM, SS, ms))
    = (String.length (dec HH) + 10)%nat.
Proof.
  apply (formatTimestamp_fits 4294967295 40); concrete.
Defined.

(** ** The sinks of the log *)

Section Sinks.

Lemma run_sinks_from calls :
  forall st,
    exists extra,
      serial_lines (run_sinks calls st) = serial_lines st ++ extra /\
      length extra = length calls /\
      ble_lines (run_sinks calls st)
      = ble_lines st ++ printed_while_connected (g_BleUartConnected st) calls /\
      sublist (printed_while_connected (g_BleUartConnected st) calls) extra.
Proof.
  induction calls as [| c calls IH]; intros st.
  - exists []. cbn. rewrite !app_nil_r. repeat split. constructor.
  - destruct (IH (sink_step st c)) as (extra & Hs & Hl & Hb & Hsub).
    unfold run_sinks in *. cbn [fold_left]. rewrite Hs, Hb.
    destruct c as [line | |]; cbn [sink_step printLog ble_connect_callback
      ble_disconnect_callback serial_lines ble_lines g_BleUartConnected
      printed_while_connected] in *.
    + exists (line :: extra). rewrite <- app_assoc.
      split; [reflexivity |]. split; [cbn; lia |].
      destruct (g_BleUartConnected st).
      * rewrite <- app_assoc. split; [reflexivity |].
        apply sublist_skip. exact Hsub.
      * split; [reflexivity |]. apply sublist_cons. exact Hsub.
    + exists ("BLE client connected"%string :: extra). rewrite <- app_assoc.
      split; [reflexivity |]. split; [cbn; lia |].
      split; [reflexivity |]. apply sublist_cons. exact Hsub.
    + exists ("BLE client disconnected"%string :: extra). rewrite <- app_assoc.
      split; [reflexivity |]. split; [cbn; lia |].
      split; [reflexivity |]. apply sublist_cons. exact Hsub.
Qed.

End Sinks.

(** X14: whatever the order of [printLog] calls and Bluetooth connect and
    disconnect callbacks, Bluetooth receives exactly the lines printed
    while a client is connected, every one of them is also on [Serial] in
    the same order, and [Serial] receives one line per call. *)
Theorem ble_lines_on_serial calls :
  ble_lines (run_sinks calls initial_sinks)
  = printed_while_connected false calls /\
  sublist (ble_lines (run_sinks calls initial_sinks))
          (serial_lines (run_sinks calls initial_sinks)) /\
  length (serial_lines (run_sinks calls initial_sinks)) = length calls.
Proof.
  destruct (run_sinks_from calls initial_sinks)
    as (extra & Hs & Hl & Hb & Hsub).
  cbn [initial_sinks serial_lines ble_lines g_BleUartConnected app] in *.
  rewrite Hs, Hb. repeat split; assumption.
Qed.

(** X15: an integer reading scaled by an integer factor is encoded
    without rounding: when the reading, the factor and their product are
    below [2 ^ 24] in magnitude, the integer encoded is exactly their
    product, and its big-endian bytes are appended. *)
Theorem integer_reading_exact v n k p s :
  to_float v = Float32.of_int n ->
  scale_factor s = Float32.of_int k ->
  Z.abs n < 2 ^ 24 -> Z.abs k < 2 ^ 24 -> Z.abs (n * k) < 2 ^ 24 ->
  codec_ok s -> room p s ->
  scaled_data v true s = Some (n * k) /\
  appends v true p s (be_bytes (Z.to_nat (data_size s)) (n * k)).
Proof.
  intros Hv Hs Hn Hk Hnk Hok Hroom.
  assert (Hx : scaled_data v true s = Some (n * k)).
  { unfold scaled_data. rewrite Hv, Hs. apply scaled_integer; assumption. }
  split; [exact Hx | apply encode_appends; assumption].
Qed.

Lemma integer_reading_exact_witness :
  scaled_data (of_uint16 40000) true pressure_like = Some 4000000 /\
  appends (of_uint16 40000) true started_payload pressure_like
    [0x00; 0x3D; 0x09; 0x00].
Proof.
  apply (integer_reading_exact (of_uint16 40000) 40000 100 started_payload
           pressure_like); first [reflexivity | concrete].
Defined.

(** ** An empty battery *)

Section EmptyBattery.

(** Rounding keeps the sign it is given. *)
Lemma binary_round_aux_sign sx mx ex lx :
  0 <= mx ->
  match binary_round_aux 24 128 sx mx ex lx with
  | S754_zero s | S754_finite s _ _ | S754_infinity s => s = sx
  | S754_nan => False
  end.
Proof.
  intros H. unfold binary_round_aux.
  pose proof (shr_fexp_nonneg 24 128 mx ex lx H) as H1.
  destruct (shr_fexp 24 128 mx ex lx) as [mrs' e']. cbn [fst] in H1.
  pose proof (shr_fexp_nonneg 24 128 _ e' loc_Exact
                (round_nearest_even_nonneg _ (loc_of_shr_record mrs') H1)) as H2.
  destruct (shr_fexp 24 128 _ e' loc_Exact) as [mrs'' e''].
  cbn [fst] in H2.
  destruct (shr_m mrs'') as [| q | q]; [reflexivity | | lia].
  destruct (e'' <=? 128 - 24); reflexivity.
Qed.

Lemma binary_round_aux_negative mx ex lx :
  0 <= mx -> is_nonpositive (binary_round_aux 24 128 true mx ex lx) = true.
Proof.
  intros H. pose proof (binary_round_aux_sign true mx ex lx H) as Hs.
  destruct (binary_round_aux 24 128 true mx ex lx);
    cbn [is_nonpositive]; (reflexivity || assumption || contradiction).
Qed.

Lemma binary_normalize_nonpositive m e :
  m <= 0 -> is_nonpositive (binary_normalize 24 128 m e false) = true.
Proof.
  intros Hm. destruct m as [| q | q]; [reflexivity | lia |].
  cbn [binary_normalize]. unfold binary_round.
  destruct (shl_align q e _) as [mz ez].
  apply binary_round_aux_negative. lia.
Qed.

Lemma shl_align_value m e e' :
  e' <= e -> Z.pos (fst (shl_align m e e')) = Z.pos m * 2 ^ (e - e').
Proof.
  intros He. unfold shl_align.
  destruct (e' - e) as [| q | q] eqn:Hq; cbn [fst]; [| lia |].
  - replace (e - e') with 0 by lia. lia.
  - rewrite iter_xO_value. f_equal. f_equal. lia.
Qed.

Lemma canonical_below m e s :
  valid_binary 24 128 (S754_finite s m e) = true -> Z.pos m < 2 ^ 24.
Proof.
  cbn [valid_binary]. unfold bounded, canonical_mantissa, fexp, emin.
  intros H. apply andb_true_iff in H as [H _]. apply Z.eqb_eq in H.
  pose proof (digits2_pos_bounds m) as [_ Hd].
  assert (Hle : Z.pos (digits2_pos m) <= 24) by lia.
  pose proof (Z.pow_le_mono_r 2 _ 24 ltac:(lia) Hle). lia.
Qed.

(** A voltage at or below the first table entry gives a difference that
    is zero or below. *)
Lemma sub_first_entry_nonpositive mvolts :
  valid_binary 24 128 mvolts = true ->
  Float32.leb mvolts (soc_mv 0) = true ->
  is_nonpositive (Float32.sub mvolts (soc_mv 0)) = true.
Proof.
  intros Hvalid Hle.
  change (soc_mv 0) with (S754_finite false 13516800 (-12)) in *.
  unfold Float32.leb, SFleb in Hle. unfold Float32.sub.
  destruct mvolts as [s | s | | s m e]; cbn [SFcompare] in Hle;
    try discriminate Hle.
  - reflexivity.
  - destruct s; [reflexivity | discriminate Hle].
  - cbn [SFsub]. apply binary_normalize_nonpositive.
    pose proof (canonical_below m e s Hvalid) as Hm.
    destruct s; cbn [cond_Zopp]; [lia |].
    destruct (Z.compare_spec e (-12)) as [-> | Hlt | Hgt];
      [| | discriminate Hle].
    + rewrite Z.min_id, !shl_align_value, Z.sub_diag by lia.
      change (2 ^ 0) with 1.
      change (Pos.compare_cont Eq m 13516800) with (m ?= 13516800)%positive
        in Hle.
      destruct (Pos.compare_spec m 13516800); try discriminate Hle; lia.
    + rewrite Z.min_l, !shl_align_value, Z.sub_diag by lia.
      change (2 ^ 0) with 1.
      assert (Hp : 2 <= 2 ^ (-12 - e)).
      { change 2 with (2 ^ 1) at 1. apply Z.pow_le_mono_r; lia. }
      change (2 ^ 24) with 16777216 in Hm. nia.
Qed.

Lemma first_entry_found mvolts :
  Float32.leb mvolts (soc_mv 0) = true ->
  Float32.leb mvolts (soc_mv 1) = true.
Proof.
  change (soc_mv 0) with (S754_finite false 13516800 (-12)).
  change (soc_mv 1) with (S754_finite false 14680064 (-12)).
  unfold Float32.leb, SFleb.
  destruct mvolts as [s | s | | s m e]; cbn [SFcompare]; try (intros H; exact H).
  destruct s; [intros H; exact H |].
  destruct (e ?= -12); try (intros H; exact H).
  change (Pos.compare_cont Eq m 13516800) with (m ?= 13516800)%positive.
  change (Pos.compare_cont Eq m 14680064) with (m ?= 14680064)%positive.
  destruct (Pos.compare_spec m 13516800); try discriminate;
    destruct (Pos.compare_spec m 14680064); try reflexivity; lia.
Qed.

Lemma nonpositive_mul_div x :
  is_nonpositive x = true ->
  is_nonpositive
    (Float32.div (Float32.mul x (Float32.of_int 10))
       (Float32.sub (soc_mv 1) (soc_mv 0))) = true.
Proof.
  intros Hx.
  change (Float32.of_int 10) with (S754_finite false 10485760 (-20)).
  change (Float32.sub (soc_mv 1) (soc_mv 0))
    with (S754_finite false 9306112 (-15)).
  assert (Hmul : is_nonpositive
                   (Float32.mul x (S754_finite false 10485760 (-20))) = true).
  { unfold Float32.mul.
    destruct x as [s | s | | s m e]; cbn [SFmul is_nonpositive] in *;
      try discriminate Hx; try reflexivity.
    - rewrite Hx. reflexivity.
    - rewrite Hx. apply binary_round_aux_negative. lia. }
  unfold Float32.div.
  destruct (Float32.mul x _) as [s | s | | s m e];
    cbn [SFdiv is_nonpositive] in *; try discriminate Hmul; try reflexivity.
  - rewrite Hmul. reflexivity.
  - rewrite Hmul. cbn [xorb].
    unfold SFdiv_core_binary.
    set (m' := match _ with Z.pos _ => _ | Z0 => _ | Z.neg _ => _ end).
    assert (Hm : 0 <= m').
    { subst m'. destruct (_ - _ - _) as [| q | q]; [lia | | lia].
      apply Z.shiftl_nonneg. lia. }
    pose proof (Z.div_pos m' (Z.pos 9306112) Hm ltac:(lia)) as Hq.
    unfold Z.div in Hq.
    destruct (Z.div_eucl m' (Z.pos 9306112)) as [q r].
    apply binary_round_aux_negative. exact Hq.
Qed.

Lemma correct_range_nonpositive v :
  is_nonpositive v = true -> exists s, correct_range v = S754_zero s.
Proof.
  intros Hv. unfold correct_range, Float32.ltb, SFltb.
  change (Float32.of_int 0) with (S754_zero false).
  change (Float32.of_int 100) with (S754_finite false 13107200 (-17)).
  destruct v as [s | s | | s m e]; cbn [is_nonpositive] in Hv;
    try discriminate Hv; cbn [SFcompare].
  - exists s. reflexivity.
  - rewrite Hv. exists false. reflexivity.
  - rewrite Hv. exists false. reflexivity.
Qed.

End EmptyBattery.

(** X16: a battery voltage at or below the first table entry (3300 mV),
    down to minus infinity, gives a state of charge of zero. *)
Theorem mvToSoC_empty mvolts :
  valid_binary Float32.prec Float32.emax mvolts = true ->
  Float32.leb mvolts (soc_mv 0) = true ->
  exists s, fst (mvToSoC mvolts) = S754_zero s.
Proof.
  intros Hvalid Hle.
  pose proof (first_entry_found mvolts Hle) as Hfound.
  pose proof (sub_first_entry_nonpositive mvolts Hvalid Hle) as Hsub.
  unfold mvToSoC. cbn [soc_loop].
  change (1 <? SOC_MV_LOOKUP_SIZE) with true. cbn iota.
  rewrite Hfound. cbn [fst].
  change (1 - 1) with 0.
  change (Float32.mul (Float32.of_int 0) (Float32.of_int 10))
    with (S754_zero false).
  apply correct_range_nonpositive.
  pose proof (nonpositive_mul_div _ Hsub) as Hq.
  unfold Float32.add.
  destruct (Float32.div _ _) as [s | s | | s m e];
    cbn [SFadd is_nonpositive] in *; try discriminate Hq; try assumption.
  destruct s; reflexivity.
Qed.

Lemma mvToSoC_empty_witness :
  exists s, fst (mvToSoC (Float32.of_int 3000)) = S754_zero s.
Proof.
  apply (mvToSoC_empty (Float32.of_int 3000)); reflexivity.
Defined.
